(** * scantron_inventory: the decode pipeline and its counter store

    A shallow embedding of the Go sources

    - package [main]: [Product], [DB_Type] with [inc] and [updateName], and
      [DecodeDocument];
    - package [utils], QR: [DecodeQRCodeZXing] and [ProcessQRRegion];
    - package [utils], [seccions.go]: [ProcessHorizontalSections].

    Go's [int] is a 64-bit two's complement integer, modelled as [Z] with the
    wrap-around written out ([GoInt]).  [float32] and [float64] values are
    modelled by the rationals they denote, every operation rounding its exact
    result to the nearest value of the format, ties to even ([GoFloat]).
    The map of the store is a [gmap string Product].  OpenCV and the QR
    reader are external libraries: they enter through the interface
    [Vision].  The HTTP handlers and the templates are not modelled. *)

From Stdlib Require Import ZArith QArith Qround Qpower Qabs Lqa Lia SpecFloat.
From stdpp Require Import gmap strings list pretty.

Local Open Scope Z_scope.

(** ** Go's [int] *)

Module GoInt.

Definition min_int : Z := - 2 ^ 63.
Definition max_int : Z := 2 ^ 63 - 1.

Definition in_range (z : Z) : Prop := min_int <= z <= max_int.

(** The representative of [z] modulo [2^64] in the range of [int]. *)
Definition wrap (z : Z) : Z := (z + 2 ^ 63) mod 2 ^ 64 - 2 ^ 63.

Definition add (a b : Z) : Z := wrap (a + b).
Definition mul (a b : Z) : Z := wrap (a * b).

End GoInt.

(** ** Go's [float32] and [float64] *)

Module GoFloat.

Local Open Scope Q_scope.

(** [ilog2 x], for [0 < x], is the exponent [e] with [2^e <= x < 2^(e+1)]. *)
Definition ilog2 (x : Q) : Z :=
  let d := (Z.log2 (Qnum x) - Z.log2 (Z.pos (Qden x)))%Z in
  if Qle_bool (2 ^ d) x then d else (d - 1)%Z.

(** The integer nearest to [y]; a tie goes to the even neighbour. *)
Definition rne (y : Q) : Z :=
  let f := Qfloor y in
  match Qcompare (y - inject_Z f) (1 # 2) with
  | Lt => f
  | Gt => (f + 1)%Z
  | Eq => if Z.even f then f else (f + 1)%Z
  end.

(** Rounding of a positive rational to [prec] significant bits. *)
Definition round_pos (prec : Z) (x : Q) : Q :=
  let e := (ilog2 x - (prec - 1))%Z in
  inject_Z (rne (x * 2 ^ (- e))) * 2 ^ e.

(** Rounding to nearest, ties to even, at precision [prec].  The exponent
    range is left unbounded: the quantities of this program (pixel
    coordinates, pixel counts and their quotients) stay far from the
    overflow and underflow thresholds of both formats.  Infinities and NaN
    are left out likewise: the two divisions of the program are by
    [numSections], behind the guard [numSections <= 0]. *)
Definition round (prec : Z) (x : Q) : Q :=
  match Qcompare x 0 with
  | Eq => 0
  | Gt => round_pos prec x
  | Lt => - round_pos prec (- x)
  end.

Definition float32 := Q.
Definition float64 := Q.

Definition f32 (x : Q) : float32 := round 24 x.
Definition f64 (x : Q) : float64 := round 53 x.

(** Conversions [float32(i)], [float64(i)] of an [int]. *)
Definition f32_of_int (i : Z) : float32 := f32 (inject_Z i).
Definition f64_of_int (i : Z) : float64 := f64 (inject_Z i).

Definition f32_mul (a b : float32) : float32 := f32 (a * b).
Definition f32_div (a b : float32) : float32 := f32 (a / b).
Definition f64_mul (a b : float64) : float64 := f64 (a * b).
Definition f64_div (a b : float64) : float64 := f64 (a / b).

(** The conversion [int(x)] of a float: the fraction is discarded. *)
Definition to_int (x : Q) : Z := Z.quot (Qnum x) (Z.pos (Qden x)).

(** The comparisons [a == b] and [a < b]. *)
Definition eqb (a b : Q) : bool := Qeq_bool a b.
Definition ltb (a b : Q) : bool :=
  match Qcompare a b with Lt => true | _ => false end.

(** The rational denoted by a float of the Standard Library's specification
    of IEEE 754 ([SpecFloat]), and the conversion of an [int] there; they
    serve to compare [round] with that specification. *)
Definition of_spec_float (f : spec_float) : Q :=
  match f with
  | S754_finite s m e => (if s then - (1) else 1) * inject_Z (Z.pos m) * 2 ^ e
  | _ => 0
  end.

Definition binary32_of_int (i : Z) : spec_float := binary_normalize 24 128 i 0 false.
Definition binary64_of_int (i : Z) : spec_float := binary_normalize 53 1024 i 0 false.

End GoFloat.

(** ** The counter store ([main.go]) *)

(** [Product] holds the product name and its count. *)
Record Product : Type := { Name : string; Value : Z }.

(** [DB_Type.items]; the mutex only serialises the callers, each method
    below is one critical section. *)
Abbreviation DB_Type := (gmap string Product).

(** [inc] increments the product's value by a given amount.  If the product
    does not exist, it is created with a default name equal to its key. *)
Definition inc (key : string) (amount : Z) (items : DB_Type) : DB_Type :=
  match items !! key with
  | Some prod =>
      <[key := {| Name := Name prod; Value := GoInt.add (Value prod) amount |}]> items
  | None => <[key := {| Name := key; Value := amount |}]> items
  end.

(** [updateName] updates the product's name. *)
Definition updateName (key newName : string) (items : DB_Type) : DB_Type :=
  match items !! key with
  | Some prod => <[key := {| Name := newName; Value := Value prod |}]> items
  | None => items
  end.

(** ** Geometry ([image.Rectangle]) *)

Record Point : Type := Pt { X : Z; Y : Z }.

Record Rectangle : Type := { Min : Point; Max : Point }.

(** [image.Rect]: the corners are put in order. *)
Definition Rect (x0 y0 x1 y1 : Z) : Rectangle :=
  let '(x0, x1) := if x1 <? x0 then (x1, x0) else (x0, x1) in
  let '(y0, y1) := if y1 <? y0 then (y1, y0) else (y0, y1) in
  {| Min := Pt x0 y0; Max := Pt x1 y1 |}.

Definition Dx (r : Rectangle) : Z := GoInt.add (X (Max r)) (- X (Min r)).
Definition Dy (r : Rectangle) : Z := GoInt.add (Y (Max r)) (- Y (Min r)).

(** ** The external libraries *)

(** A Go [error] value that is not [nil], by its message. *)
Definition error : Type := string.

Record RGBA : Type := { cR : Z; cG : Z; cB : Z; cA : Z }.

(** What the pipeline draws back onto the image. *)
Inductive Drawing : Type :=
| DrawRectangle (r : Rectangle) (c : RGBA) (thickness : Z)
| DrawLine (pt1 pt2 : Point) (c : RGBA) (thickness : Z)
| DrawText (text : string) (org : Point) (c : RGBA) (thickness : Z).

(** gocv and gozxing, as far as the pipeline uses them.  The two region
    arguments of [CountDark] are the rectangle cut out of the image and the
    strip inside it; the count is the one of [CountNonZero] after the inverse
    binary threshold, so it is never negative. *)
Class Vision : Type := {
  Mat : Type;
  GoImage : Type;
  BinaryBitmap : Type;
  (** [IMRead]: [None] stands for an empty matrix. *)
  IMRead : string -> option Mat;
  (** [Mat.ToImage] on the grayscale of a region of the image. *)
  ToImage : Mat -> Rectangle -> error + GoImage;
  (** [NewBinaryBitmap] over the hybrid binarizer of the image. *)
  NewBinaryBitmap : GoImage -> error + BinaryBitmap;
  (** [QRCodeReader.Decode] followed by [GetText]. *)
  ReaderDecode : BinaryBitmap -> error + string;
  (** [CountNonZero] of [Threshold (..., thresh, 255, ThresholdBinaryInv)]. *)
  CountDark : Mat -> Rectangle -> Rectangle -> Z -> Z;
  CountDark_nonneg : forall img rect roi thresh, 0 <= CountDark img rect roi thresh;
  (** [Rectangle], [Line] and [PutText]. *)
  Draw : Mat -> Drawing -> Mat
}.

(** ** The bubble section analyzer, on the dark-pixel counts *)

Module Sections.

Import GoFloat.

Definition darkThreshold : Z := 100.
Definition thresholdFactor : Q := 5 # 10.

(** [sectionWidth := float32(width) / float32(numSections)]. *)
Definition sectionWidth (width numSections : Z) : float32 :=
  f32_div (f32_of_int width) (f32_of_int numSections).

(** [xStart := int(float32(i) * sectionWidth)]. *)
Definition xStart (width numSections i : Z) : Z :=
  to_int (f32_mul (f32_of_int i) (sectionWidth width numSections)).

(** [xEnd := xStart + int(sectionWidth)], and [width] for the last section. *)
Definition xEnd (width numSections i : Z) : Z :=
  if i =? numSections - 1 then width
  else GoInt.add (xStart width numSections i)
                 (to_int (sectionWidth width numSections)).

(** The columns [(xStart, xEnd)] of the sections [0 .. numSections - 1]. *)
Definition strips (width numSections : Z) : list (Z * Z) :=
  (fun i => (xStart width numSections i, xEnd width numSections i))
    <$> seqZ 0 numSections.

Definition roi (width height numSections i : Z) : Rectangle :=
  Rect (xStart width numSections i) 0 (xEnd width numSections i) height.

(** [totalCount += count], over the sections. *)
Definition totalCount (darkCounts : list Z) : Z :=
  fold_left GoInt.add darkCounts 0.

(** [avg := float64(totalCount) / float64(numSections)]. *)
Definition avg (darkCounts : list Z) (numSections : Z) : float64 :=
  f64_div (f64_of_int (totalCount darkCounts)) (f64_of_int numSections).

(** The loop [for i, count := range darkCounts], from index [i] on, with
    the current [maxCount] and [maxIndex]. *)
Fixpoint maxScan (darkCounts : list Z) (i maxCount maxIndex : Z) : Z * Z :=
  match darkCounts with
  | [] => (maxCount, maxIndex)
  | count :: rest =>
      if count >? maxCount then maxScan rest (i + 1) count i
      else maxScan rest (i + 1) maxCount maxIndex
  end.

Definition maxCount (darkCounts : list Z) : Z := fst (maxScan darkCounts 0 0 (-1)).
Definition maxIndex (darkCounts : list Z) : Z := snd (maxScan darkCounts 0 0 (-1)).

(** The test [float64(maxCount) > (1.0 + thresholdFactor) * avg]. *)
Definition significant (darkCounts : list Z) (numSections : Z) : bool :=
  ltb (f64_mul (f64 (1 + thresholdFactor)) (avg darkCounts numSections))
      (f64_of_int (maxCount darkCounts)).

(** Decide if a section stands out. *)
Definition standout (darkCounts : list Z) (numSections : Z) : Z :=
  if eqb (avg darkCounts numSections) 0 then
    if maxCount darkCounts >? 0 then maxIndex darkCounts else 0
  else if significant darkCounts numSections then maxIndex darkCounts
  else 0.

End Sections.

(** ** The quantities of the specification

    The sum and the arithmetic mean of the dark counts in exact arithmetic,
    as the specification words the standout test; [totalCount] and [avg]
    above are their counterparts in the code. *)

Definition total (darkCounts : list Z) : Z := foldr Z.add 0 darkCounts.


(** ** The QR region decoder and the analyzer, on the image *)

Section Pipeline.

Context `{V : Vision}.

Import GoFloat.

Definition green : RGBA := {| cR := 0; cG := 255; cB := 0; cA := 0 |}.
Definition blue : RGBA := {| cR := 0; cG := 0; cB := 255; cA := 0 |}.
Definition red : RGBA := {| cR := 255; cG := 0; cB := 0; cA := 0 |}.

(** [DecodeQRCodeZXing], applied to the grayscale of the region [rect] of
    [img].  It returns the decoded text or an error. *)
Definition DecodeQRCodeZXing (img : Mat) (rect : Rectangle) : string * option error :=
  match ToImage img rect with
  | inl err => ("", Some ("failed to convert Mat to image: " +:+ err))
  | inr im =>
      match NewBinaryBitmap im with
      | inl err => ("", Some ("failed to create binary bitmap: " +:+ err))
      | inr bitmap =>
          match ReaderDecode bitmap with
          | inl err => ("", Some err)
          | inr text => (text, None)
          end
      end
  end.

(** [ProcessQRRegion]: the image after the two drawings, the text and the
    error it returns. *)
Definition ProcessQRRegion (img : Mat) (rect : Rectangle) : Mat * (string * option error) :=
  let '(qrText, _) := DecodeQRCodeZXing img rect in
  let img := Draw img (DrawRectangle rect green 2) in
  let ptText := Pt (X (Min rect)) (GoInt.add (Y (Max rect)) 10) in
  let img := Draw img (DrawText qrText ptText blue 2) in
  (img, (qrText, None)).

(** [darkCounts[i]], for the sections [0 .. numSections - 1] of the region
    [rect] of width [width] and height [height]. *)
Definition darkCounts (img : Mat) (rect : Rectangle) (width height numSections : Z) : list Z :=
  (fun i => CountDark img rect (Sections.roi width height numSections i)
                      Sections.darkThreshold)
    <$> seqZ 0 numSections.

(** The vertical lines that mark the section boundaries. *)
Definition drawBoundaries (img : Mat) (rect : Rectangle) (width numSections : Z) : Mat :=
  foldl (fun img i =>
           let x := GoInt.add (X (Min rect))
                              (to_int (f32_mul (f32_of_int i)
                                               (Sections.sectionWidth width numSections))) in
           Draw img (DrawLine (Pt x (Y (Min rect))) (Pt x (Y (Max rect))) red 1))
        img (seqZ 1 (numSections - 1)).

(** [ProcessHorizontalSections]: the image after the drawings, the
    standout value and the error.  [gray.Cols ()] and [gray.Rows ()] are the
    width and the height of [rect]: [img.Region] is the view of the image
    under [rect] (a rectangle that leaves the image makes OpenCV abort the
    program; the model covers the calls that return). *)
Definition ProcessHorizontalSections (img : Mat) (rect : Rectangle) (numSections : Z)
  : Mat * (Z * option error) :=
  let width := Dx rect in
  let height := Dy rect in
  if (numSections <=? 0) || (width =? 0) || (height =? 0) then
    (img, (0, Some "invalid input dimensions or numSections"))
  else
    let counts := darkCounts img rect width height numSections in
    let standout := Sections.standout counts numSections in
    let img := Draw img (DrawRectangle rect green 2) in
    let img := drawBoundaries img rect width numSections in
    let text := "Standout: " +:+ pretty standout in
    let ptText := Pt (GoInt.add (X (Min rect)) 200) (GoInt.add (Y (Min rect)) (-10)) in
    let img := Draw img (DrawText text ptText blue 2) in
    (img, (standout, None)).

(** ** The decode pipeline ([DecodeDocument]) *)

(** [offset := int(float32(i) * 83.47)]. *)
Definition rowOffset (i : Z) : Z :=
  to_int (f32_mul (f32_of_int i) (f32 (8347 # 100))).

Definition keyRect (offset : Z) : Rectangle :=
  Rect 450 (GoInt.add 540 offset) 515 (GoInt.add 605 offset).
Definition tensRect (offset : Z) : Rectangle :=
  Rect 534 (GoInt.add 541 offset) 951 (GoInt.add 576 offset).
Definition onesRect (offset : Z) : Rectangle :=
  Rect 980 (GoInt.add 541 offset) 1395 (GoInt.add 576 offset).

(** One turn of the loop over the rows: the image carries the drawings, the
    store the increments.  Each [continue] of the source is a branch that
    hands the store on as it is. *)
Definition processRow (st : Mat * DB_Type) (i : Z) : Mat * DB_Type :=
  let '(img, db) := st in
  let offset := rowOffset i in
  let '(img, (key, err)) := ProcessQRRegion img (keyRect offset) in
  match err with
  | Some _ => (img, db)
  | None =>
      if String.eqb key "" then (img, db)
      else
        let '(img, (tens, err)) := ProcessHorizontalSections img (tensRect offset) 10 in
        match err with
        | Some _ => (img, db)
        | None =>
            let '(img, (ones, err)) := ProcessHorizontalSections img (onesRect offset) 10 in
            match err with
            | Some _ => (img, db)
            | None =>
                let count := GoInt.add (GoInt.mul tens 10) ones in
                if count =? 0 then (img, db) else (img, inc key count db)
            end
        end
  end.

(** [DecodeDocument]: the store after the 21 rows, and the image written
    at the end, if the input could be read. *)
Definition DecodeDocument (inputImage : string) (db : DB_Type) : option Mat * DB_Type :=
  match IMRead inputImage with
  | None => (None, db)
  | Some img =>
      let '(img, db) := foldl processRow (img, db) (seqZ 0 21) in
      (Some img, db)
  end.

End Pipeline.

(** ** The handlers of the store ([HandleUpdateInventory], [HandleUpdateName]) *)

(** What a handler reads of a request: the method, and the form with the
    first value of each field. *)
Record Request : Type := { Method : string; Form : gmap string string }.

(** [req.FormValue]: the empty string for a field that is not there. *)
Definition FormValue (req : Request) (name : string) : string :=
  default "" (Form req !! name).

(** What a handler answers: [http.Error] or [http.Redirect]. *)
Inductive Response : Type :=
| HttpError (msg : string) (code : Z)
| HttpRedirect (url : string) (code : Z).

Definition MethodPost : string := "POST".
Definition StatusSeeOther : Z := 303.
Definition StatusMethodNotAllowed : Z := 405.

(** [HandleUpdateInventory] handles incrementing or decrementing product
    value: a delta of 1 for increment, -1 for decrement. *)
Definition HandleUpdateInventory (req : Request) (db : DB_Type) : Response * DB_Type :=
  if negb (String.eqb (Method req) MethodPost) then
    (HttpError "Invalid method" StatusMethodNotAllowed, db)
  else
    let key := FormValue req "key" in
    let action := FormValue req "action" in
    let delta := if String.eqb action "dec" then -1 else 1 in
    (HttpRedirect "/dashboard" StatusSeeOther, inc key delta db).

(** [HandleUpdateName] updates the product name based on the form
    submission. *)
Definition HandleUpdateName (req : Request) (db : DB_Type) : Response * DB_Type :=
  if negb (String.eqb (Method req) MethodPost) then
    (HttpError "Invalid method" StatusMethodNotAllowed, db)
  else
    let key := FormValue req "key" in
    let newName := FormValue req "name" in
    (HttpRedirect "/dashboard" StatusSeeOther, updateName key newName db).

(** The store after a list of increments, first to last; it serves to state
    what a document does to the store. *)
Definition applyIncs (db : DB_Type) (incs : list (string * Z)) : DB_Type :=
  foldl (fun d kc => inc kc.1 kc.2 d) db incs.

(** ** Scanned sheets for the examples

    A sheet is given by what a scan of it holds: the text of the QR symbol in
    a region (or the reader's error), the number of dark pixels in a strip of
    a region, and the drawings made on it so far, latest first. *)

Module Sheet.

Record sheet : Type := {
  codes : Rectangle -> error + string;
  marks : Rectangle -> Rectangle -> nat;
  drawn : list Drawing
}.

Definition draw (s : sheet) (d : Drawing) : sheet :=
  {| codes := codes s; marks := marks s; drawn := d :: drawn s |}.

(** The interface, over a directory of scans. *)
Definition vision (files : string -> option sheet) : Vision :=
  {| Mat := sheet;
     GoImage := error + string;
     BinaryBitmap := error + string;
     IMRead := files;
     ToImage := fun s rect => inr (codes s rect);
     NewBinaryBitmap := fun im => inr im;
     ReaderDecode := fun bitmap => bitmap;
     CountDark := fun s rect roi _ => Z.of_nat (marks s rect roi);
     CountDark_nonneg := fun s rect roi _ => Nat2Z.is_nonneg (marks s rect roi);
     Draw := draw |}.

(** Nothing printed on the sheet. *)
Definition blank : sheet :=
  {| codes := fun _ => inl "NotFoundException";
     marks := fun _ _ => 0%nat;
     drawn := [] |}.

(** The first row carries the key WIDGET-1; no bubble is filled in. *)
Definition unmarked : sheet :=
  {| codes := fun rect =>
       if Y (Min rect) =? 540 then inr "WIDGET-1" else inl "NotFoundException";
     marks := fun _ _ => 0%nat;
     drawn := [] |}.

(** The first row carries the key WIDGET-1 and a filled bubble in the sixth
    strip (columns 207 to 248) of the ones region. *)
Definition widget5 : sheet :=
  {| codes := fun rect =>
       if Y (Min rect) =? 540 then inr "WIDGET-1" else inl "NotFoundException";
     marks := fun rect roi =>
       if (X (Min rect) =? 980) && (Y (Min rect) =? 541) && (X (Min roi) =? 207)
       then 40%nat else 0%nat;
     drawn := [] |}.

Definition files (path : string) : option sheet :=
  if String.eqb path "blank.png" then Some blank
  else if String.eqb path "unmarked.png" then Some unmarked
  else if String.eqb path "widget5.png" then Some widget5
  else None.

End Sheet.

(** * Properties *)

(** ** Go's [int] *)

Lemma wrap_in_range (z : Z) : GoInt.in_range z -> GoInt.wrap z = z.
Proof.
  unfold GoInt.in_range, GoInt.wrap, GoInt.min_int, GoInt.max_int.
  intros Hz. rewrite Z.mod_small; lia.
Qed.

Lemma wrap_range (z : Z) : GoInt.in_range (GoInt.wrap z).
Proof.
  unfold GoInt.in_range, GoInt.wrap, GoInt.min_int, GoInt.max_int.
  pose proof (Z.mod_pos_bound (z + 2 ^ 63) (2 ^ 64)). lia.
Qed.

Lemma add_in_range (a b : Z) : GoInt.in_range (a + b) -> GoInt.add a b = a + b.
Proof. apply wrap_in_range. Qed.

Lemma add_0_l (a : Z) : GoInt.in_range a -> GoInt.add 0 a = a.
Proof. intros Ha. unfold GoInt.add. now rewrite Z.add_0_l, wrap_in_range. Qed.

(** ** Go's floats against IEEE 754

    [round] agrees with the operations of the Standard Library's
    specification of IEEE 754 on the values this program computes with: the
    section starts of the tens region, the row offsets, and the standout test
    of counts whose mean is 20 / 3. *)

Example round_matches_ieee_section_starts :
  forallb (fun i =>
             Qeq_bool
               (GoFloat.of_spec_float
                  (SFmul 24 128 (GoFloat.binary32_of_int i)
                     (SFdiv 24 128 (GoFloat.binary32_of_int 417)
                                   (GoFloat.binary32_of_int 10))))
               (GoFloat.f32_mul (GoFloat.f32_of_int i) (Sections.sectionWidth 417 10)))
          (seqZ 0 10) = true.
Proof. vm_compute. reflexivity. Qed.

Example round_matches_ieee_row_offsets :
  forallb (fun i =>
             Qeq_bool
               (GoFloat.of_spec_float
                  (SFmul 24 128 (GoFloat.binary32_of_int i)
                     (SFdiv 24 128 (GoFloat.binary32_of_int 8347)
                                   (GoFloat.binary32_of_int 100))))
               (GoFloat.f32_mul (GoFloat.f32_of_int i) (GoFloat.f32 (8347 # 100))))
          (seqZ 0 21) = true.
Proof. vm_compute. reflexivity. Qed.

Example round_matches_ieee_threshold :
  Qeq_bool
    (GoFloat.of_spec_float
       (SFmul 53 1024
          (SFdiv 53 1024 (GoFloat.binary64_of_int 3) (GoFloat.binary64_of_int 2))
          (SFdiv 53 1024 (GoFloat.binary64_of_int 20) (GoFloat.binary64_of_int 3))))
    (GoFloat.f64_mul (GoFloat.f64 (1 + Sections.thresholdFactor))
                     (GoFloat.f64_div (GoFloat.f64_of_int 20) (GoFloat.f64_of_int 3)))
  = true.
Proof. vm_compute. reflexivity. Qed.

(** ** The counter store *)

Section Store.

Implicit Types (items : DB_Type) (key k newName : string) (amount : Z) (prod : Product).

Lemma inc_lookup_absent items key amount :
  items !! key = None ->
  inc key amount items !! key = Some {| Name := key; Value := amount |}.
Proof. intros Hk. unfold inc. rewrite Hk. apply lookup_insert_eq. Qed.

Lemma inc_lookup_present items key amount prod :
  items !! key = Some prod ->
  inc key amount items !! key
  = Some {| Name := Name prod; Value := GoInt.add (Value prod) amount |}.
Proof. intros Hk. unfold inc. rewrite Hk. apply lookup_insert_eq. Qed.

Lemma inc_lookup_other items key k amount :
  key <> k -> inc key amount items !! k = items !! k.
Proof.
  intros Hne. unfold inc. destruct (items !! key); now rewrite lookup_insert_ne.
Qed.

Lemma updateName_lookup_present items key newName prod :
  items !! key = Some prod ->
  updateName key newName items !! key
  = Some {| Name := newName; Value := Value prod |}.
Proof. intros Hk. unfold updateName. rewrite Hk. apply lookup_insert_eq. Qed.

Lemma updateName_absent items key newName :
  items !! key = None -> updateName key newName items = items.
Proof. intros Hk. unfold updateName. now rewrite Hk. Qed.

Lemma updateName_lookup_other items key k newName :
  key <> k -> updateName key newName items !! k = items !! k.
Proof.
  intros Hne. unfold updateName. destruct (items !! key); [|done].
  now rewrite lookup_insert_ne.
Qed.

(** The keys of the store: [inc] adds its key, [updateName] adds none. *)
Lemma inc_dom items key amount : dom (inc key amount items) = {[key]} ∪ dom items.
Proof. unfold inc. destruct (items !! key); apply dom_insert_L. Qed.

Lemma updateName_dom items key newName : dom (updateName key newName items) = dom items.
Proof.
  unfold updateName. destruct (items !! key) as [prod|] eqn:Hk; [|done].
  apply dom_insert_lookup_L. now exists prod.
Qed.

End Store.

(** C8.  [inc] (incrementOrCreate) creates the entry of an absent key with
    the key as its name and the amount as its value; on a present key it adds
    the amount to the value with Go's [int] addition, which is the sum of the
    integers whenever that sum is an [int], keeps the name, and touches no
    other key.  [updateName] (rename) sets the name of a present key, keeps
    its value, and returns the store as it was on an absent key. *)
Theorem inc_updateName_contract (items : DB_Type) (key newName : string) (amount : Z) :
  (items !! key = None ->
   inc key amount items !! key = Some {| Name := key; Value := amount |})
  /\ (forall prod, items !! key = Some prod ->
        inc key amount items !! key
        = Some {| Name := Name prod; Value := GoInt.add (Value prod) amount |}
        /\ (GoInt.in_range (Value prod + amount) ->
            inc key amount items !! key
            = Some {| Name := Name prod; Value := Value prod + amount |}))
  /\ (forall k, key <> k -> inc key amount items !! k = items !! k)
  /\ (forall prod, items !! key = Some prod ->
        updateName key newName items !! key
        = Some {| Name := newName; Value := Value prod |})
  /\ (forall k, key <> k -> updateName key newName items !! k = items !! k)
  /\ (items !! key = None -> updateName key newName items = items).
Proof.
  repeat split.
  - apply inc_lookup_absent.
  - now apply inc_lookup_present.
  - intros Hr. rewrite <- (add_in_range _ _ Hr). now apply inc_lookup_present.
  - intros k Hne. now apply inc_lookup_other.
  - intros prod Hk. now apply updateName_lookup_present.
  - intros k Hne. now apply updateName_lookup_other.
  - apply updateName_absent.
Qed.

(** C9.  [updateName] never changes the value of any entry; [inc] never
    changes the name of an entry that exists; and on a present key
    [updateName key newName] followed by [inc key amount] leaves the entry
    with the name [newName] and the old value increased by [amount] (Go's
    [int] addition: exactly [amount] more whenever the sum is an [int]). *)
Theorem updateName_inc_frame (items : DB_Type) (key newName : string) (amount : Z) :
  (forall k, Value <$> (updateName key newName items !! k) = Value <$> (items !! k))
  /\ (forall k prod, items !! k = Some prod ->
        Name <$> (inc key amount items !! k) = Some (Name prod))
  /\ (forall prod, items !! key = Some prod ->
        inc key amount (updateName key newName items) !! key
        = Some {| Name := newName; Value := GoInt.add (Value prod) amount |}
        /\ (GoInt.in_range (Value prod + amount) ->
            inc key amount (updateName key newName items) !! key
            = Some {| Name := newName; Value := Value prod + amount |})).
Proof.
  split; [|split].
  - intros k. destruct (decide (key = k)) as [<-|Hne].
    + destruct (items !! key) as [prod|] eqn:Hk.
      * now rewrite (updateName_lookup_present _ _ _ _ Hk).
      * now rewrite updateName_absent, Hk.
    + now rewrite updateName_lookup_other.
  - intros k prod Hk. destruct (decide (key = k)) as [<-|Hne].
    + now rewrite (inc_lookup_present _ _ _ _ Hk).
    + now rewrite inc_lookup_other, Hk.
  - intros prod Hk.
    pose proof (updateName_lookup_present _ _ newName _ Hk) as Hu.
    pose proof (inc_lookup_present _ _ amount _ Hu) as Hi. simpl in Hi.
    split; [exact Hi|]. intros Hr. now rewrite Hi, (add_in_range _ _ Hr).
Qed.

(** ** The row geometry *)

Lemma row_cases (i : Z) :
  0 <= i < 21 -> i ∈ seqZ 0 21.
Proof. intros Hi. apply elem_of_seqZ. lia. Qed.

(** C2, as the code has it.  In every row 0..20 the ones rectangle and the
    tens rectangle have the same vertical extent and the same height, 35; the
    tens rectangle is 417 wide and the ones rectangle 415: its left edge lies
    446 and its right edge 444 to the right of the tens rectangle's. *)
Theorem ones_tens_geometry (i : Z) :
  0 <= i < 21 ->
  Y (Min (onesRect (rowOffset i))) = Y (Min (tensRect (rowOffset i)))
  /\ Y (Max (onesRect (rowOffset i))) = Y (Max (tensRect (rowOffset i)))
  /\ Dy (onesRect (rowOffset i)) = 35
  /\ Dy (tensRect (rowOffset i)) = 35
  /\ Dx (tensRect (rowOffset i)) = 417
  /\ Dx (onesRect (rowOffset i)) = 415
  /\ X (Min (onesRect (rowOffset i))) = X (Min (tensRect (rowOffset i))) + 446
  /\ X (Max (onesRect (rowOffset i))) = X (Max (tensRect (rowOffset i))) + 444.
Proof.
  intros Hi. apply row_cases in Hi.
  repeat (apply elem_of_cons in Hi; destruct Hi as [->|Hi];
          [vm_compute; repeat split; reflexivity|]).
  now apply elem_of_nil in Hi.
Qed.

Lemma ones_tens_geometry_row3 :
  0 <= 3 < 21
  /\ Dy (onesRect (rowOffset 3)) = 35
  /\ Dx (tensRect (rowOffset 3)) = 417
  /\ Dx (onesRect (rowOffset 3)) = 415.
Proof.
  split; [lia|].
  pose proof (ones_tens_geometry 3 ltac:(lia)) as H.
  repeat split; apply H.
Defined.

(** C2, as the spec states it, fails in the first row already: the two
    widths differ. *)
Lemma ones_tens_width_differ :
  Dx (onesRect (rowOffset 0)) <> Dx (tensRect (rowOffset 0)).
Proof. vm_compute. discriminate. Qed.

(** ** The QR region decoder *)

Section QR.

Context `{V : Vision}.

(** A failed decode returns the empty text. *)
Lemma DecodeQRCodeZXing_error (img : Mat) (rect : Rectangle) (e : error) :
  snd (DecodeQRCodeZXing img rect) = Some e ->
  fst (DecodeQRCodeZXing img rect) = "".
Proof.
  unfold DecodeQRCodeZXing.
  destruct (ToImage img rect) as [?|im]; [done|].
  destruct (NewBinaryBitmap im) as [?|bitmap]; [done|].
  now destruct (ReaderDecode bitmap).
Qed.

(** [ProcessQRRegion] returns the text of the decoder and never an error. *)
Lemma ProcessQRRegion_result (img : Mat) (rect : Rectangle) :
  snd (ProcessQRRegion img rect) = (fst (DecodeQRCodeZXing img rect), None).
Proof. unfold ProcessQRRegion. now destruct (DecodeQRCodeZXing img rect). Qed.

(** A row whose key is empty ends after [ProcessQRRegion]. *)
Lemma processRow_empty_key (img : Mat) (db : DB_Type) (i : Z) :
  fst (snd (ProcessQRRegion img (keyRect (rowOffset i)))) = "" ->
  processRow (img, db) i = (fst (ProcessQRRegion img (keyRect (rowOffset i))), db).
Proof.
  intros Hk. unfold processRow.
  pose proof (ProcessQRRegion_result img (keyRect (rowOffset i))) as Hr.
  destruct (ProcessQRRegion img (keyRect (rowOffset i))) as [img1 [key err]].
  simpl in Hk, Hr. injection Hr as _ ->. subst key. reflexivity.
Qed.

End QR.

(** C4, on the code.  When the QR decoder fails on the key region,
    [ProcessQRRegion] returns the empty text and no error (the error of
    [DecodeQRCodeZXing] is dropped, where its comment and its caller expect
    it to be returned); the row then ends on the empty key: the store is the
    one before the row and the image carries the drawings of
    [ProcessQRRegion] only, so no section was analysed. *)
Theorem ProcessQRRegion_decoder_failure `{V : Vision}
    (img : Mat) (db : DB_Type) (i : Z) (e : error) :
  snd (DecodeQRCodeZXing img (keyRect (rowOffset i))) = Some e ->
  snd (ProcessQRRegion img (keyRect (rowOffset i))) = ("", None)
  /\ processRow (img, db) i = (fst (ProcessQRRegion img (keyRect (rowOffset i))), db).
Proof.
  intros He. apply DecodeQRCodeZXing_error in He.
  pose proof (ProcessQRRegion_result img (keyRect (rowOffset i))) as Hr.
  rewrite He in Hr. split; [exact Hr|].
  apply processRow_empty_key. now rewrite Hr.
Qed.

Lemma ProcessQRRegion_decoder_failure_blank :
  snd (ProcessQRRegion (V := Sheet.vision Sheet.files) Sheet.blank (keyRect (rowOffset 0)))
  = ("", None)
  /\ snd (processRow (V := Sheet.vision Sheet.files) (Sheet.blank, ∅) 0) = ∅.
Proof.
  destruct (ProcessQRRegion_decoder_failure (V := Sheet.vision Sheet.files)
              Sheet.blank ∅ 0 "NotFoundException" eq_refl) as [H1 H2].
  split; [exact H1|]. exact (f_equal snd H2).
Defined.

(** ** The decode pipeline: one row *)

Section Row.

Context `{V : Vision}.

(** What a row can do to the store: nothing, or one [inc] of a non-empty key
    by a count that is not zero. *)
Lemma processRow_store (img : Mat) (db : DB_Type) (i : Z) :
  snd (processRow (img, db) i) = db
  \/ exists key count,
       key <> "" /\ count <> 0 /\ snd (processRow (img, db) i) = inc key count db.
Proof.
  unfold processRow.
  destruct (ProcessQRRegion img (keyRect (rowOffset i))) as [img1 [key [e|]]];
    [now left|].
  destruct (String.eqb key "") eqn:Hkey; [now left|].
  destruct (ProcessHorizontalSections img1 (tensRect (rowOffset i)) 10)
    as [img2 [tens [e|]]]; [now left|].
  destruct (ProcessHorizontalSections img2 (onesRect (rowOffset i)) 10)
    as [img3 [ones [e|]]]; [now left|].
  destruct (GoInt.add (GoInt.mul tens 10) ones =? 0) eqn:Hcount; [now left|].
  right. exists key, (GoInt.add (GoInt.mul tens 10) ones).
  apply String.eqb_neq in Hkey. apply Z.eqb_neq in Hcount. done.
Qed.

End Row.

(** C7.  A row whose key region decodes to a non-empty key, whose two
    section analyses succeed, and whose count [tens * 10 + ones] is zero,
    leaves the store as it was: the same keys with the same entries. *)
Theorem processRow_zero_count `{V : Vision}
    (img : Mat) (db : DB_Type) (i : Z) (key : string) (tens ones : Z) :
  snd (ProcessQRRegion img (keyRect (rowOffset i))) = (key, None) ->
  key <> "" ->
  snd (ProcessHorizontalSections
         (fst (ProcessQRRegion img (keyRect (rowOffset i))))
         (tensRect (rowOffset i)) 10) = (tens, None) ->
  snd (ProcessHorizontalSections
         (fst (ProcessHorizontalSections
                 (fst (ProcessQRRegion img (keyRect (rowOffset i))))
                 (tensRect (rowOffset i)) 10))
         (onesRect (rowOffset i)) 10) = (ones, None) ->
  GoInt.add (GoInt.mul tens 10) ones = 0 ->
  snd (processRow (img, db) i) = db.
Proof.
  intros Hqr Hkey Htens Hones Hcount. unfold processRow.
  destruct (ProcessQRRegion img (keyRect (rowOffset i))) as [img1 [key' err]].
  simpl in Hqr, Htens, Hones. injection Hqr as -> ->.
  apply String.eqb_neq in Hkey. rewrite Hkey.
  destruct (ProcessHorizontalSections img1 (tensRect (rowOffset i)) 10)
    as [img2 [tens' err]].
  simpl in Htens, Hones. injection Htens as -> ->.
  destruct (ProcessHorizontalSections img2 (onesRect (rowOffset i)) 10)
    as [img3 [ones' err]].
  simpl in Hones. injection Hones as -> ->.
  now rewrite Hcount.
Qed.

Lemma processRow_zero_count_unmarked :
  snd (processRow (V := Sheet.vision Sheet.files)
         (Sheet.unmarked, {["GADGET-2" := {| Name := "Gadget"; Value := 4 |}]}) 0)
  = {["GADGET-2" := {| Name := "Gadget"; Value := 4 |}]}.
Proof.
  apply (processRow_zero_count (V := Sheet.vision Sheet.files)
           Sheet.unmarked _ 0 "WIDGET-1" 0 0).
  - vm_compute. reflexivity.
  - discriminate.
  - vm_compute. reflexivity.
  - vm_compute. reflexivity.
  - vm_compute. reflexivity.
Defined.

(** ** The scan for the maximum *)

Section MaxScan.

Import Sections.

(** The scan from index [i] with the current maximum [mc] at [mi]: either no
    count exceeds [mc] and the pair is returned as it was, or the result is
    the first position [k] of the largest count, which exceeds [mc]. *)
Lemma maxScan_spec (l : list Z) (i mc mi : Z) :
  (maxScan l i mc mi = (mc, mi) /\ forall x, x ∈ l -> x <= mc)
  \/ exists (k : nat) (c : Z),
       maxScan l i mc mi = (c, i + Z.of_nat k)
       /\ l !! k = Some c
       /\ mc < c
       /\ (forall (k' : nat) x, (k' < k)%nat -> l !! k' = Some x -> x < c)
       /\ (forall x, x ∈ l -> x <= c).
Proof.
  revert i mc mi. induction l as [|count rest IH]; intros i mc mi; simpl.
  - left. split; [reflexivity|]. intros x Hx. now apply elem_of_nil in Hx.
  - destruct (Z.gtb_spec count mc) as [Hgt|Hle].
    + right. destruct (IH (i + 1) count i) as [[Heq Hall]|(k & c & Heq & Hk & Hlt & Hfirst & Hall)].
      * exists 0%nat, count. rewrite Heq, Z.add_0_r. repeat split; try done.
        -- intros k' x Hk'. lia.
        -- intros x Hx. apply elem_of_cons in Hx as [->|Hx]; [lia|auto].
      * exists (S k), c. rewrite Heq. repeat split; try done.
        -- f_equal. lia.
        -- lia.
        -- intros [|k'] x Hk' Hx; simpl in Hx.
           ++ injection Hx as <-. lia.
           ++ apply (Hfirst k' x); [lia|done].
        -- intros x Hx. apply elem_of_cons in Hx as [->|Hx]; [lia|auto].
    + destruct (IH (i + 1) mc mi) as [[Heq Hall]|(k & c & Heq & Hk & Hlt & Hfirst & Hall)].
      * left. split; [done|].
        intros x Hx. apply elem_of_cons in Hx as [->|Hx]; [lia|auto].
      * right. exists (S k), c. rewrite Heq. repeat split; try done.
        -- f_equal. lia.
        -- intros [|k'] x Hk' Hx; simpl in Hx.
           ++ injection Hx as <-. lia.
           ++ apply (Hfirst k' x); [lia|done].
        -- intros x Hx. apply elem_of_cons in Hx as [->|Hx]; [lia|auto].
Qed.

(** The loop of the analyzer starts from [maxCount = 0] and
    [maxIndex = -1]: it ends there when no count is positive, and at the
    first position of the largest count otherwise. *)
Lemma maxCount_maxIndex_spec (l : list Z) :
  (maxCount l = 0 /\ maxIndex l = -1 /\ forall x, x ∈ l -> x <= 0)
  \/ exists k : nat,
       maxIndex l = Z.of_nat k
       /\ l !! k = Some (maxCount l)
       /\ 0 < maxCount l
       /\ (forall (k' : nat) x, (k' < k)%nat -> l !! k' = Some x -> x < maxCount l)
       /\ (forall x, x ∈ l -> x <= maxCount l).
Proof.
  unfold maxCount, maxIndex.
  destruct (maxScan_spec l 0 0 (-1)) as [[Heq Hall]|(k & c & Heq & Hk & Hlt & Hfirst & Hall)];
    rewrite Heq; simpl.
  - now left.
  - right. exists k. repeat split; try done.
Qed.

(** The standout value is [0] or [maxIndex]. *)
Lemma standout_cases (l : list Z) (numSections : Z) :
  standout l numSections = 0
  \/ (standout l numSections = maxIndex l
      /\ (0 < maxCount l \/ GoFloat.eqb (avg l numSections) 0 = false)).
Proof.
  unfold standout.
  destruct (GoFloat.eqb (avg l numSections) 0) eqn:Havg.
  - destruct (Z.gtb_spec (maxCount l) 0); [right|left]; auto with zarith.
  - destruct (significant l numSections); [right|left]; auto.
Qed.

Lemma totalCount_zeros (l : list Z) :
  (forall x, x ∈ l -> x = 0) -> totalCount l = 0.
Proof.
  unfold totalCount. induction l as [|c rest IH]; intros Hall; [reflexivity|].
  simpl. rewrite (Hall c) by apply list_elem_of_here.
  change (GoInt.add 0 0) with 0. apply IH.
  intros x Hx. apply Hall. now apply list_elem_of_further.
Qed.

Lemma avg_zero_total (l : list Z) (numSections : Z) :
  totalCount l = 0 -> GoFloat.eqb (avg l numSections) 0 = true.
Proof.
  intros Ht. unfold avg. rewrite Ht.
  change (GoFloat.f64_of_int 0) with 0%Q.
  unfold GoFloat.f64_div, GoFloat.f64, GoFloat.round.
  assert (H0 : (0 / GoFloat.f64_of_int numSections == 0)%Q).
  { unfold Qdiv. apply Qmult_0_l. }
  rewrite (proj1 (Qeq_alt _ _) H0). reflexivity.
Qed.

(** With counts that are not negative, the standout value is the position of
    a section. *)
Lemma standout_range (l : list Z) (numSections : Z) :
  (forall x, x ∈ l -> 0 <= x) ->
  standout l numSections = 0
  \/ exists k : nat,
       standout l numSections = Z.of_nat k /\ l !! k = Some (maxCount l)
       /\ 0 < maxCount l.
Proof.
  intros Hpos.
  destruct (standout_cases l numSections) as [H0|[Hs Hwhy]]; [now left|].
  destruct (maxCount_maxIndex_spec l) as [(Hmc & _ & Hall)|(k & Hmi & Hk & Hlt & _)].
  - exfalso. destruct Hwhy as [Hlt|Havg]; [lia|].
    rewrite avg_zero_total in Havg; [discriminate|].
    apply totalCount_zeros. intros x Hx.
    specialize (Hpos x Hx). specialize (Hall x Hx). lia.
  - right. exists k. rewrite Hs. auto.
Qed.

Lemma standout_zeros (l : list Z) (numSections : Z) :
  (forall x, x ∈ l -> x = 0) -> standout l numSections = 0.
Proof.
  intros Hall. unfold standout.
  rewrite avg_zero_total by now apply totalCount_zeros.
  destruct (maxCount_maxIndex_spec l) as [(Hmc & _)|(k & _ & Hk & Hlt & _)].
  - now rewrite Hmc.
  - apply list_elem_of_lookup_2 in Hk. apply Hall in Hk. lia.
Qed.

End MaxScan.



(** ** The analyzer on the image *)

Section Analyzer.

Context `{V : Vision}.

Lemma darkCounts_length (img : Mat) (rect : Rectangle) (width height numSections : Z) :
  length (darkCounts img rect width height numSections) = Z.to_nat numSections.
Proof. unfold darkCounts. now rewrite length_fmap, length_seqZ. Qed.

Lemma darkCounts_nonneg (img : Mat) (rect : Rectangle) (width height numSections : Z) (x : Z) :
  x ∈ darkCounts img rect width height numSections -> 0 <= x.
Proof.
  unfold darkCounts. intros Hx. apply list_elem_of_fmap in Hx as (i & -> & _).
  apply CountDark_nonneg.
Qed.

(** A call that returns no error passed the guard and returns the standout
    value of the dark counts of the region. *)
Lemma ProcessHorizontalSections_ok (img : Mat) (rect : Rectangle) (numSections s : Z) :
  snd (ProcessHorizontalSections img rect numSections) = (s, None) ->
  0 < numSections
  /\ s = Sections.standout (darkCounts img rect (Dx rect) (Dy rect) numSections) numSections.
Proof.
  unfold ProcessHorizontalSections.
  destruct (Z.leb_spec numSections 0) as [Hle|Hlt]; simpl; [discriminate|].
  destruct ((Dx rect =? 0) || (Dy rect =? 0)); simpl; [discriminate|].
  intros Heq. injection Heq as <-. split; [lia|reflexivity].
Qed.

End Analyzer.

(** C10.  Whenever the analyzer returns without error, the value it returns
    is between [0] and [numSections - 1]; and it is [0] when every section's
    dark count is zero. *)
Theorem ProcessHorizontalSections_range `{V : Vision}
    (img : Mat) (rect : Rectangle) (numSections s : Z) :
  snd (ProcessHorizontalSections img rect numSections) = (s, None) ->
  0 <= s <= numSections - 1
  /\ ((forall x, x ∈ darkCounts img rect (Dx rect) (Dy rect) numSections -> x = 0) ->
      s = 0).
Proof.
  intros Hok. apply ProcessHorizontalSections_ok in Hok as [Hn ->]. split.
  - destruct (standout_range (darkCounts img rect (Dx rect) (Dy rect) numSections) numSections)
      as [H0|(k & Hs & Hk & _)].
    + apply darkCounts_nonneg.
    + lia.
    + apply lookup_lt_Some in Hk. rewrite darkCounts_length in Hk. lia.
  - apply standout_zeros.
Qed.

Lemma ProcessHorizontalSections_range_widget5 :
  0 <= fst (snd (ProcessHorizontalSections (V := Sheet.vision Sheet.files)
                   Sheet.widget5 (onesRect (rowOffset 0)) 10)) <= 10 - 1.
Proof.
  apply (ProcessHorizontalSections_range (V := Sheet.vision Sheet.files)
           Sheet.widget5 (onesRect (rowOffset 0)) 10).
  vm_compute. reflexivity.
Defined.

(** C1, on the code.  The value returned for a standout section is its
    position counted from zero, where the comments of the function promise
    the 1-based index: with the mark in the second of ten sections the
    analyzer returns 1, with the mark in the last one 9, and with the mark in
    the first one 0, the value that also means no standout.  On the sheet
    whose ones region is marked in its sixth section the call of the
    pipeline returns 5. *)
Theorem standout_counts_from_zero :
  Sections.standout [0; 9; 0; 0; 0; 0; 0; 0; 0; 0] 10 = 1
  /\ Sections.standout [0; 0; 0; 0; 0; 0; 0; 0; 0; 9] 10 = 9
  /\ Sections.standout [9; 0; 0; 0; 0; 0; 0; 0; 0; 0] 10 = 0
  /\ Sections.standout [0; 0; 0; 0; 0; 0; 0; 0; 0; 0] 10 = 0
  /\ darkCounts (V := Sheet.vision Sheet.files) Sheet.widget5
       (onesRect (rowOffset 0)) 415 35 10
     = [0; 0; 0; 0; 0; 40; 0; 0; 0; 0]
  /\ snd (ProcessHorizontalSections (V := Sheet.vision Sheet.files)
            Sheet.widget5 (onesRect (rowOffset 0)) 10)
     = (5, None).
Proof. vm_compute. repeat split; reflexivity. Qed.

(** C3, on the code.  For the tens region (417 columns, ten sections) the
    section width is 41.7 in [float32]; the starts are the truncated
    multiples of it and every section but the last is 41 columns wide, so
    columns 82, 124, 207, 249, 332 and 374 belong to no section and the
    widths add up to 411, not 417. *)
Theorem strips_417_leave_gaps :
  Dx (tensRect (rowOffset 0)) = 417
  /\ Sections.strips 417 10
     = [(0, 41); (41, 82); (83, 124); (125, 166); (166, 207);
        (208, 249); (250, 291); (291, 332); (333, 374); (375, 417)]
  /\ foldr (fun s acc => snd s - fst s + acc) 0 (Sections.strips 417 10) = 411
  /\ Forall (fun s => ~ (fst s <= 82 < snd s)) (Sections.strips 417 10).
Proof.
  assert (Hs : Sections.strips 417 10
    = [(0, 41); (41, 82); (83, 124); (125, 166); (166, 207);
       (208, 249); (250, 291); (291, 332); (333, 374); (375, 417)])
    by (vm_compute; reflexivity).
  rewrite Hs. split; [reflexivity|]. split; [reflexivity|]. split; [reflexivity|].
  repeat constructor; simpl; lia.
Qed.

(** ** Rounding to nearest, ties to even *)

Section Rounding.

Import GoFloat.
Local Open Scope Q_scope.

Lemma pow2_pos (e : Z) : 0 < 2 ^ e.
Proof. apply Qpower_0_lt. reflexivity. Qed.

Lemma pow2_add (a b : Z) : 2 ^ (a + b) == 2 ^ a * 2 ^ b.
Proof. apply Qpower_plus. discriminate. Qed.

Lemma pow2_succ (e : Z) : 2 ^ (e + 1) == 2 * 2 ^ e.
Proof. rewrite pow2_add. change (2 ^ 1) with 2. ring. Qed.

Lemma pow2_pred (e : Z) : 2 * 2 ^ (e - 1) == 2 ^ e.
Proof. rewrite <- pow2_succ. now replace (e - 1 + 1)%Z with e by lia. Qed.

Lemma pow2_cancel (e : Z) : 2 ^ (- e) * 2 ^ e == 1.
Proof. rewrite <- pow2_add. now replace (- e + e)%Z with 0%Z by lia. Qed.

Lemma pow2_le (a b : Z) : (a <= b)%Z -> 2 ^ a <= 2 ^ b.
Proof. intros H. apply Qpower_le_compat_l; [exact H|]. discriminate. Qed.

Lemma pow2_lt (a b : Z) : (a < b)%Z -> 2 ^ a < 2 ^ b.
Proof. intros H. apply Qpower_lt_compat_l; [exact H|]. reflexivity. Qed.

Lemma pow2_inject (a : Z) : (0 <= a)%Z -> inject_Z (2 ^ a) == 2 ^ a.
Proof. intros H. now rewrite Zpower_Qpower. Qed.

Lemma inject_Z_le (a b : Z) : (a <= b)%Z -> inject_Z a <= inject_Z b.
Proof. now rewrite <- Zle_Qle. Qed.

Lemma inject_Z_lt (a b : Z) : (a < b)%Z -> inject_Z a < inject_Z b.
Proof. now rewrite <- Zlt_Qlt. Qed.

(** Scaling by a power of two: [x * 2^(-e) <= y] is [x <= y * 2^e]. *)
Lemma scale_out (y : Q) (e : Z) : y * 2 ^ e * 2 ^ (- e) == y.
Proof.
  rewrite <- Qmult_assoc, (Qmult_comm (2 ^ e)), pow2_cancel. ring.
Qed.

Lemma scale_out_r (y : Q) (e : Z) : y * 2 ^ (- e) * 2 ^ e == y.
Proof.
  rewrite <- Qmult_assoc, pow2_cancel. ring.
Qed.

Lemma scale_le_l (x y : Q) (e : Z) : x <= y * 2 ^ e -> x * 2 ^ (- e) <= y.
Proof.
  intros H. rewrite <- (scale_out y e).
  apply Qmult_le_compat_r; [exact H|]. apply Qlt_le_weak, pow2_pos.
Qed.

Lemma scale_le_r (x y : Q) (e : Z) : x * 2 ^ e <= y -> x <= y * 2 ^ (- e).
Proof.
  intros H. rewrite <- (scale_out x e).
  apply Qmult_le_compat_r; [exact H|]. apply Qlt_le_weak, pow2_pos.
Qed.

Lemma scale_lt_l (x y : Q) (e : Z) : x < y * 2 ^ e -> x * 2 ^ (- e) < y.
Proof.
  intros H. rewrite <- (scale_out y e).
  apply Qmult_lt_compat_r; [apply pow2_pos|exact H].
Qed.

(** ** [ilog2] *)

Lemma Q_as_quotient (x : Q) : x == inject_Z (Qnum x) / inject_Z (Z.pos (Qden x)).
Proof. destruct x as [p q]. simpl. apply Qmake_Qdiv. Qed.

Lemma ilog2_spec (x : Q) : 0 < x -> 2 ^ ilog2 x <= x /\ x < 2 ^ (ilog2 x + 1).
Proof.
  intros Hx. unfold ilog2.
  set (p := Qnum x). set (q := Z.pos (Qden x)).
  assert (Hp : (0 < p)%Z) by (destruct x as [n d]; unfold Qlt in Hx; simpl in *; lia).
  assert (Hq : (0 < q)%Z) by (unfold q; lia).
  set (a := Z.log2 p). set (b := Z.log2 q). 
  destruct (Z.log2_spec p Hp) as [Ha1 Ha2]. destruct (Z.log2_spec q Hq) as [Hb1 Hb2].
  fold a in Ha1, Ha2. fold b in Hb1, Hb2.
  assert (Ha0 : (0 <= a)%Z) by apply Z.log2_nonneg.
  assert (Hb0 : (0 <= b)%Z) by apply Z.log2_nonneg.
  apply inject_Z_le in Ha1, Hb1. apply inject_Z_lt in Ha2, Hb2.
  rewrite pow2_inject in Ha1, Hb1 by lia.
  rewrite pow2_inject in Ha2, Hb2 by lia.
  replace (Z.succ a) with (a + 1)%Z in Ha2 by lia.
  replace (Z.succ b) with (b + 1)%Z in Hb2 by lia.
  rewrite pow2_succ in Ha2, Hb2.
  assert (Hxq : x * inject_Z q == inject_Z p).
  { rewrite (Q_as_quotient x) at 1. fold p q. field.
    intros H0. apply inject_Z_lt in Hq. rewrite H0 in Hq. apply (Qlt_irrefl 0). exact Hq. }
  apply inject_Z_lt in Hq. change (inject_Z 0) with 0 in Hq.
  pose proof (pow2_pos a) as Pa. pose proof (pow2_pos b) as Pb.
  pose proof (pow2_add (a - b) b) as Hab. replace (a - b + b)%Z with a in Hab by lia.
  pose proof (pow2_pos (a - b)) as Pab.
  assert (Hup : x < 2 ^ (a - b + 1)).
  { rewrite pow2_succ. 
    apply Qnot_le_lt. intros Hc.
    assert (2 * 2 ^ (a - b) * 2 ^ b <= x * inject_Z q).
    { apply Qle_trans with (x * 2 ^ b).
      - apply Qmult_le_compat_r; lra.
      - apply Qmult_le_l; lra. }
    nra. }
  assert (Hlow : 2 ^ (a - b - 1) < x).
  { pose proof (pow2_pred (a - b)) as Hpr. pose proof (pow2_pos (a - b - 1)) as Pp.
    apply Qnot_le_lt. intros Hc.
    assert (x * inject_Z q < 2 ^ (a - b - 1) * (2 * 2 ^ b)).
    { apply Qle_lt_trans with (2 ^ (a - b - 1) * inject_Z q).
      - apply Qmult_le_compat_r; lra.
      - apply Qmult_lt_l; lra. }
    nra. }
  destruct (Qle_bool (2 ^ (a - b)) x) eqn:Hle.
  - apply Qle_bool_iff in Hle. split; assumption.
  - assert (Hlt : x < 2 ^ (a - b)).
    { apply Qnot_le_lt. intros Hc. apply Qle_bool_iff in Hc. congruence. }
    replace (a - b - 1 + 1)%Z with (a - b)%Z by lia. split; lra.
Qed.

Lemma ilog2_unique (x : Q) (e : Z) : 2 ^ e <= x -> x < 2 ^ (e + 1) -> ilog2 x = e.
Proof.
  intros H1 H2.
  assert (Hx : 0 < x) by (pose proof (pow2_pos e); lra).
  destruct (ilog2_spec x Hx) as [H3 H4].
  assert (He1 : (e < ilog2 x + 1)%Z).
  { apply Qpower_lt_compat_l_inv with (q := 2); [lra|reflexivity]. }
  assert (He2 : (ilog2 x < e + 1)%Z).
  { apply Qpower_lt_compat_l_inv with (q := 2); [lra|reflexivity]. }
  lia.
Qed.

Lemma ilog2_comp (x y : Q) : 0 < x -> x == y -> ilog2 x = ilog2 y.
Proof.
  intros Hx Hxy. symmetry. destruct (ilog2_spec x Hx) as [H1 H2].
  apply ilog2_unique; rewrite <- Hxy; assumption.
Qed.


(** ** [rne] *)

Lemma rne_comp (x y : Q) : x == y -> rne x = rne y.
Proof.
  intros H. unfold rne. rewrite (Qfloor_comp _ _ H).
  assert (H' : x - inject_Z (Qfloor y) == y - inject_Z (Qfloor y)) by (rewrite H; reflexivity).
  now rewrite (Qcompare_comp _ _ H' (1 # 2) (1 # 2) (Qeq_refl _)).
Qed.

Lemma rne_cases (y : Q) :
  (rne y = Qfloor y /\ y - inject_Z (Qfloor y) <= 1 # 2)
  \/ (rne y = (Qfloor y + 1)%Z /\ (1 # 2) <= y - inject_Z (Qfloor y)).
Proof.
  unfold rne. destruct (Qcompare_spec (y - inject_Z (Qfloor y)) (1 # 2)) as [H|H|H].
  - destruct (Z.even (Qfloor y)); [left|right]; split; try reflexivity; rewrite H; apply Qle_refl.
  - left. split; [reflexivity|]. now apply Qlt_le_weak.
  - right. split; [reflexivity|]. now apply Qlt_le_weak.
Qed.

Lemma inject_Z_succ (z : Z) : inject_Z (z + 1) == inject_Z z + 1.
Proof. rewrite inject_Z_plus. reflexivity. Qed.

Lemma inject_Z_pred (z : Z) : inject_Z (z - 1) == inject_Z z - 1.
Proof. replace (z - 1)%Z with (z + -1)%Z by lia. rewrite inject_Z_plus. reflexivity. Qed.

Lemma rne_close (y : Q) :
  inject_Z (rne y) - (1 # 2) <= y /\ y <= inject_Z (rne y) + (1 # 2).
Proof.
  pose proof (Qfloor_le y) as Hl. pose proof (Qlt_floor y) as Hu.
  rewrite inject_Z_succ in Hu.
  destruct (rne_cases y) as [[-> H]|[-> H]]; [|rewrite inject_Z_succ]; split; lra.
Qed.

Lemma rne_inject (z : Z) : rne (inject_Z z) = z.
Proof.
  unfold rne. rewrite Qfloor_Z.
  assert (H : inject_Z z - inject_Z z < 1 # 2) by lra.
  now rewrite (proj1 (Qlt_alt _ _) H).
Qed.

Lemma rne_mono (x y : Q) : x <= y -> (rne x <= rne y)%Z.
Proof.
  intros Hxy. pose proof (Qfloor_resp_le _ _ Hxy) as Hf.
  destruct (Z.eq_dec (Qfloor x) (Qfloor y)) as [Heq|Hne].
  - unfold rne. rewrite <- Heq.
    destruct (Qcompare_spec (x - inject_Z (Qfloor x)) (1 # 2)) as [Hx|Hx|Hx];
      destruct (Qcompare_spec (y - inject_Z (Qfloor x)) (1 # 2)) as [Hy|Hy|Hy];
      try destruct (Z.even (Qfloor x)); try lia; exfalso; lra.
  - destruct (rne_cases x) as [[-> _]|[-> _]]; destruct (rne_cases y) as [[-> _]|[-> _]]; lia.
Qed.

Lemma rne_le_inject (x : Q) (z : Z) : x <= inject_Z z -> (rne x <= z)%Z.
Proof. intros H. rewrite <- (rne_inject z). now apply rne_mono. Qed.

Lemma rne_ge_inject (x : Q) (z : Z) : inject_Z z <= x -> (z <= rne x)%Z.
Proof. intros H. rewrite <- (rne_inject z). now apply rne_mono. Qed.

(** A tie goes to the even neighbour. *)
Lemma rne_tie_below_even (z : Z) : Z.even z = true -> rne (inject_Z z - (1 # 2)) = z.
Proof.
  intros Hev.
  assert (Hfl : Qfloor (inject_Z z - (1 # 2)) = (z - 1)%Z).
  { pose proof (Qfloor_le (inject_Z z - (1 # 2))) as Hl.
    pose proof (Qlt_floor (inject_Z z - (1 # 2))) as Hu.
    rewrite inject_Z_succ in Hu.
    assert (H1 : inject_Z (Qfloor (inject_Z z - (1 # 2))) < inject_Z z) by lra.
    assert (H2 : inject_Z (z - 1) < inject_Z (Qfloor (inject_Z z - (1 # 2)) + 1)).
    { rewrite inject_Z_succ, inject_Z_pred. lra. }
    rewrite <- Zlt_Qlt in H1, H2. lia. }
  unfold rne. rewrite Hfl.
  assert (H : inject_Z z - (1 # 2) - inject_Z (z - 1) == 1 # 2).
  { rewrite inject_Z_pred. ring. }
  rewrite (proj1 (Qeq_alt _ _) H).
  replace (z - 1)%Z with (Z.pred z) by lia. rewrite Z.even_pred.
  rewrite <- Z.negb_even, Hev. simpl. lia.
Qed.

Lemma rne_quarter_below (z : Z) : rne (inject_Z z - (1 # 4)) = z.
Proof.
  assert (Hfl : Qfloor (inject_Z z - (1 # 4)) = (z - 1)%Z).
  { pose proof (Qfloor_le (inject_Z z - (1 # 4))) as Hl.
    pose proof (Qlt_floor (inject_Z z - (1 # 4))) as Hu.
    rewrite inject_Z_succ in Hu.
    assert (H1 : inject_Z (Qfloor (inject_Z z - (1 # 4))) < inject_Z z) by lra.
    assert (H2 : inject_Z (z - 1) < inject_Z (Qfloor (inject_Z z - (1 # 4)) + 1)).
    { rewrite inject_Z_succ, inject_Z_pred. lra. }
    rewrite <- Zlt_Qlt in H1, H2. lia. }
  unfold rne. rewrite Hfl.
  assert (H : (1 # 2) < inject_Z z - (1 # 4) - inject_Z (z - 1)).
  { rewrite inject_Z_pred. lra. }
  rewrite (proj1 (Qgt_alt _ _) H). lia.
Qed.


(** ** Rounding of a positive rational *)

Lemma round_pos_scaled (prec : Z) (x : Q) :
  0 < x ->
  2 ^ (prec - 1) <= x * 2 ^ (- (ilog2 x - (prec - 1)))
  /\ x * 2 ^ (- (ilog2 x - (prec - 1))) < 2 ^ prec.
Proof.
  intros Hx. destruct (ilog2_spec x Hx) as [H1 H2]. split.
  - apply scale_le_r. rewrite <- pow2_add.
    now replace (prec - 1 + (ilog2 x - (prec - 1)))%Z with (ilog2 x) by lia.
  - apply scale_lt_l. rewrite <- pow2_add.
    now replace (prec + (ilog2 x - (prec - 1)))%Z with (ilog2 x + 1)%Z by lia.
Qed.

(** A value [a * 2^b], on the exponent [e <= b], is a whole number of units
    [2^e]. *)
Lemma representable_scaled (a b e : Z) :
  (e <= b)%Z -> inject_Z a * 2 ^ b * 2 ^ (- e) == inject_Z (a * 2 ^ (b - e)).
Proof.
  intros Hle. rewrite inject_Z_mult, pow2_inject by lia.
  rewrite <- Qmult_assoc, <- pow2_add. now replace (b + - e)%Z with (b - e)%Z by lia.
Qed.

Lemma round_pos_whole (prec : Z) (x : Q) (z : Z) :
  x * 2 ^ (- (ilog2 x - (prec - 1))) == inject_Z z -> round_pos prec x == x.
Proof.
  intros H. unfold round_pos. rewrite (rne_comp _ _ H), rne_inject, <- H.
  apply scale_out_r.
Qed.

Lemma round_pos_comp (prec : Z) (x y : Q) :
  0 < x -> x == y -> round_pos prec x == round_pos prec y.
Proof.
  intros Hx Hxy. unfold round_pos. rewrite <- (ilog2_comp x y Hx Hxy).
  assert (H : x * 2 ^ (- (ilog2 x - (prec - 1))) == y * 2 ^ (- (ilog2 x - (prec - 1))))
    by (apply Qmult_comp; [exact Hxy|reflexivity]).
  now rewrite (rne_comp _ _ H).
Qed.

Lemma round_pos_lower (prec : Z) (x : Q) :
  (1 <= prec)%Z -> 0 < x -> 2 ^ ilog2 x <= round_pos prec x.
Proof.
  intros Hp Hx. destruct (round_pos_scaled prec x Hx) as [H1 _].
  rewrite <- pow2_inject in H1 by lia. apply rne_ge_inject in H1.
  apply inject_Z_le in H1. rewrite pow2_inject in H1 by lia.
  unfold round_pos.
  apply Qle_trans with (2 ^ (prec - 1) * 2 ^ (ilog2 x - (prec - 1))).
  - rewrite <- pow2_add.
    replace (prec - 1 + (ilog2 x - (prec - 1)))%Z with (ilog2 x) by lia. apply Qle_refl.
  - apply Qmult_le_compat_r; [exact H1|]. apply Qlt_le_weak, pow2_pos.
Qed.

Lemma round_pos_positive (prec : Z) (x : Q) :
  (1 <= prec)%Z -> 0 < x -> 0 < round_pos prec x.
Proof.
  intros Hp Hx. pose proof (round_pos_lower prec x Hp Hx). pose proof (pow2_pos (ilog2 x)). lra.
Qed.

(** The rounding of [x] does not pass a representable value: values
    [a * 2^b] with [0 < a <= 2^prec]. *)
Lemma round_pos_le (prec : Z) (x : Q) (a b : Z) :
  (1 <= prec)%Z -> 0 < x -> (0 < a <= 2 ^ prec)%Z ->
  x <= inject_Z a * 2 ^ b -> round_pos prec x <= inject_Z a * 2 ^ b.
Proof.
  intros Hp Hx Ha Hle. set (e := (ilog2 x - (prec - 1))%Z).
  destruct (Z_le_gt_dec e b) as [Heb|Heb].
  - assert (H : x * 2 ^ (- e) <= inject_Z (a * 2 ^ (b - e))).
    { rewrite <- representable_scaled by exact Heb.
      apply Qmult_le_compat_r; [exact Hle|]. apply Qlt_le_weak, pow2_pos. }
    apply rne_le_inject, inject_Z_le in H. unfold round_pos. fold e.
    apply Qle_trans with (inject_Z (a * 2 ^ (b - e)) * 2 ^ e).
    + apply Qmult_le_compat_r; [exact H|]. apply Qlt_le_weak, pow2_pos.
    + rewrite <- representable_scaled by exact Heb. rewrite scale_out_r. apply Qle_refl.
  - (* [a * 2^b] is at most [2^(ilog2 x)], so [x] is that power of two *)
    destruct (ilog2_spec x Hx) as [H1 _].
    assert (H2 : inject_Z a * 2 ^ b <= 2 ^ ilog2 x).
    { apply Qle_trans with (2 ^ prec * 2 ^ b).
      - apply Qmult_le_compat_r; [|apply Qlt_le_weak, pow2_pos].
        rewrite <- pow2_inject by lia. apply inject_Z_le. lia.
      - rewrite <- pow2_add. apply pow2_le. unfold e in Heb. lia. }
    assert (Hx2 : x == 2 ^ ilog2 x) by (apply Qle_antisym; lra).
    assert (Hw : x * 2 ^ (- e) == inject_Z (2 ^ (prec - 1))).
    { rewrite pow2_inject by lia. rewrite Hx2 at 1. rewrite <- pow2_add.
      unfold e. now replace (ilog2 x + - (ilog2 x - (prec - 1)))%Z with (prec - 1)%Z by lia. }
    rewrite (round_pos_whole prec x _ Hw). exact Hle.
Qed.

Lemma round_pos_ge (prec : Z) (x : Q) (a b : Z) :
  (1 <= prec)%Z -> 0 < x -> (0 < a <= 2 ^ prec)%Z ->
  inject_Z a * 2 ^ b <= x -> inject_Z a * 2 ^ b <= round_pos prec x.
Proof.
  intros Hp Hx Ha Hle. set (e := (ilog2 x - (prec - 1))%Z).
  destruct (Z_le_gt_dec e b) as [Heb|Heb].
  - assert (H : inject_Z (a * 2 ^ (b - e)) <= x * 2 ^ (- e)).
    { rewrite <- representable_scaled by exact Heb.
      apply Qmult_le_compat_r; [exact Hle|]. apply Qlt_le_weak, pow2_pos. }
    apply rne_ge_inject, inject_Z_le in H. unfold round_pos. fold e.
    apply Qle_trans with (inject_Z (a * 2 ^ (b - e)) * 2 ^ e).
    + rewrite <- representable_scaled by exact Heb. rewrite scale_out_r. apply Qle_refl.
    + apply Qmult_le_compat_r; [exact H|]. apply Qlt_le_weak, pow2_pos.
  - apply Qle_trans with (2 ^ ilog2 x); [|now apply round_pos_lower].
    apply Qle_trans with (2 ^ prec * 2 ^ b).
    + apply Qmult_le_compat_r; [|apply Qlt_le_weak, pow2_pos].
      rewrite <- pow2_inject by lia. apply inject_Z_le. lia.
    + rewrite <- pow2_add. apply pow2_le. unfold e in Heb. lia.
Qed.

End Rounding.

Section RoundSigned.

Import GoFloat.
Local Open Scope Q_scope.

Lemma ilog2_lt (x : Q) (u : Z) : 0 < x -> x < 2 ^ u -> (ilog2 x < u)%Z.
Proof.
  intros Hx Hu. destruct (ilog2_spec x Hx) as [H1 _].
  apply Qpower_lt_compat_l_inv with (q := 2); [lra|reflexivity].
Qed.

Lemma ilog2_ge (x : Q) (l : Z) : 2 ^ l <= x -> (l <= ilog2 x)%Z.
Proof.
  intros Hl. assert (Hx : 0 < x) by (pose proof (pow2_pos l); lra).
  destruct (ilog2_spec x Hx) as [_ H2].
  assert (l < ilog2 x + 1)%Z; [|lia].
  apply Qpower_lt_compat_l_inv with (q := 2); [lra|reflexivity].
Qed.

Lemma round_of_pos (prec : Z) (x : Q) : 0 < x -> round prec x = round_pos prec x.
Proof. intros Hx. unfold round. now rewrite (proj1 (Qgt_alt _ _) Hx). Qed.

Lemma round_comp (prec : Z) (x y : Q) : x == y -> round prec x == round prec y.
Proof.
  intros Hxy. unfold round.
  rewrite (Qcompare_comp _ _ Hxy 0 0 (Qeq_refl 0)).
  destruct (Qcompare_spec y 0) as [H|H|H].
  - reflexivity.
  - apply Qopp_comp. apply round_pos_comp; [rewrite Hxy; lra|now apply Qopp_comp].
  - apply round_pos_comp; [rewrite Hxy; lra|exact Hxy].
Qed.

Lemma round_le (prec : Z) (x : Q) (a b : Z) :
  (1 <= prec)%Z -> 0 < x -> (0 < a <= 2 ^ prec)%Z ->
  x <= inject_Z a * 2 ^ b -> round prec x <= inject_Z a * 2 ^ b.
Proof. intros Hp Hx Ha Hle. rewrite round_of_pos by exact Hx. now apply round_pos_le. Qed.

Lemma round_ge (prec : Z) (x : Q) (a b : Z) :
  (1 <= prec)%Z -> 0 < x -> (0 < a <= 2 ^ prec)%Z ->
  inject_Z a * 2 ^ b <= x -> inject_Z a * 2 ^ b <= round prec x.
Proof. intros Hp Hx Ha Hle. rewrite round_of_pos by exact Hx. now apply round_pos_ge. Qed.

Lemma round_positive (prec : Z) (x : Q) : (1 <= prec)%Z -> 0 < x -> 0 < round prec x.
Proof. intros Hp Hx. rewrite round_of_pos by exact Hx. now apply round_pos_positive. Qed.

(** An [int] of at most [prec] bits converts exactly. *)
Lemma round_int (prec : Z) (z : Z) :
  (1 <= prec)%Z -> (0 < z <= 2 ^ prec)%Z -> round prec (inject_Z z) == inject_Z z.
Proof.
  intros Hp Hz.
  assert (Hx : 0 < inject_Z z) by (change 0 with (inject_Z 0); apply inject_Z_lt; lia).
  assert (Hr : inject_Z z == inject_Z z * 2 ^ 0) by (change (2 ^ 0) with 1; ring).
  apply Qle_antisym.
  - rewrite Hr at 2. apply round_le; try done. rewrite <- Hr. apply Qle_refl.
  - rewrite Hr at 1. apply round_ge; try done. rewrite <- Hr. apply Qle_refl.
Qed.

End RoundSigned.

(** ** The significance test in [float64] and in exact arithmetic *)

Section Bridge.

Import GoFloat.
Local Open Scope Q_scope.

(** A power of two between [4 * n] and [8 * n]. *)
Lemma scale_exists (n : Z) :
  (1 <= n)%Z -> exists k : Z, (0 <= k)%Z /\ (4 * n <= 2 ^ k < 8 * n)%Z.
Proof.
  intros Hn. exists (Z.log2_up (4 * n)).
  destruct (Z.log2_up_spec (4 * n)) as [H1 H2]; [lia|].
  assert (H0 : (0 < Z.log2_up (4 * n))%Z) by (apply Z.log2_up_pos; lia).
  split; [lia|]. split; [exact H2|].
  replace (Z.log2_up (4 * n)) with (Z.succ (Z.pred (Z.log2_up (4 * n)))) by lia.
  rewrite Z.pow_succ_r by lia. lia.
Qed.

Lemma pow2_neg_inject (k : Z) : (0 <= k)%Z -> 2 ^ (- k) * inject_Z (2 ^ k) == 1.
Proof. intros Hk. rewrite pow2_inject by exact Hk. apply pow2_cancel. Qed.

Lemma pow2_neg_succ (k : Z) : 2 * 2 ^ (- (k + 1)) == 2 ^ (- k).
Proof.
  rewrite <- pow2_succ. now replace (- (k + 1) + 1)%Z with (- k)%Z by lia.
Qed.

Lemma quotient_pos (T n : Z) : (1 <= n)%Z -> (1 <= T)%Z -> 0 < inject_Z T / inject_Z n.
Proof.
  intros Hn HT. apply Qlt_shift_div_l.
  - change 0 with (inject_Z 0). apply inject_Z_lt. lia.
  - rewrite Qmult_0_l. change 0 with (inject_Z 0). apply inject_Z_lt. lia.
Qed.

Lemma significant_below (T n M : Z) :
  (1 <= n)%Z -> (1 <= T)%Z -> (T <= n * M)%Z -> (n * M <= 2 ^ 49)%Z ->
  (3 * T + 1 <= 2 * n * M)%Z ->
  round 53 ((3 # 2) * round 53 (inject_Z T / inject_Z n)) < inject_Z M.
Proof.
  intros Hn HT HTM Hb Hlt.
  destruct (scale_exists n Hn) as (k & Hk0 & Hk).
  pose proof (pow2_neg_inject k Hk0) as HK. pose proof (pow2_neg_succ k) as HK2.
  pose proof (pow2_pos (- k)) as HIK. pose proof (pow2_pos (- (k + 1))) as HIK2.
  pose proof (pow2_inject k Hk0) as HKq.
  set (K := (2 ^ k)%Z) in *. clearbody K.
  set (a := ((T * K + n - 1) / n)%Z).
  assert (Ha : (T * K <= a * n <= T * K + n - 1)%Z).
  { pose proof (Z.div_mod (T * K + n - 1) n ltac:(lia)) as Hd.
    pose proof (Z.mod_pos_bound (T * K + n - 1) n ltac:(lia)) as Hm.
    fold a in Hd. clearbody a. lia. }
  clearbody a.
  assert (HM : (1 <= M)%Z) by nia.
  assert (Ha0 : (0 < a)%Z) by nia.
  assert (HMK : (M * K <= 2 ^ 52)%Z) by nia.
  assert (Ha53 : (a <= 2 ^ 53)%Z) by nia.
  assert (H3a : (3 * a <= 2 * M * K - 1)%Z) by nia.
  pose proof (quotient_pos T n Hn HT) as Hx0.
  assert (Hnq : 0 < inject_Z n) by (change 0 with (inject_Z 0); apply inject_Z_lt; lia).
  (* [T / n <= a / K] *)
  assert (Hg : inject_Z T / inject_Z n <= inject_Z a * 2 ^ (- k)).
  { apply Qle_shift_div_r; [exact Hnq|].
    destruct Ha as [Ha1 _]. apply inject_Z_le in Ha1. rewrite !inject_Z_mult in Ha1.
    rewrite HKq in Ha1.
    setoid_replace (inject_Z a * 2 ^ (- k) * inject_Z n)
      with (inject_Z a * inject_Z n * 2 ^ (- k)) using relation Qeq by ring.
    now apply scale_le_r. }
  pose proof (round_le 53 _ a (- k) ltac:(lia) Hx0 ltac:(lia) Hg) as Hy.
  pose proof (round_positive 53 _ ltac:(lia) Hx0) as Hy0.
  set (y := round 53 (inject_Z T / inject_Z n)) in *.
  assert (Hf : (3 # 2) * y <= inject_Z (2 * M * K - 1) * 2 ^ (- (k + 1))).
  { apply inject_Z_le in H3a. rewrite inject_Z_mult in H3a.
    change (inject_Z 3) with 3 in H3a. nra. }
  pose proof (round_le 53 ((3 # 2) * y) (2 * M * K - 1) (- (k + 1))
                ltac:(lia) ltac:(lra) ltac:(nia) Hf) as Ht.
  eapply Qle_lt_trans; [exact Ht|].
  replace (2 * M * K - 1)%Z with (2 * M * K + -1)%Z by lia.
  rewrite inject_Z_plus, !inject_Z_mult. change (inject_Z 2) with 2. change (inject_Z (-1)) with (-1).
  assert (E : (2 * inject_Z M * inject_Z K + -1) * 2 ^ (- (k + 1))
              == inject_Z M * (2 ^ (- k) * inject_Z K) - 2 ^ (- (k + 1)))
    by (rewrite <- HK2; ring).
  rewrite E, HK. lra.
Qed.


Lemma significant_above (T n M : Z) :
  (1 <= n)%Z -> (1 <= T)%Z -> (T <= n * M)%Z -> (n * M <= 2 ^ 49)%Z ->
  (2 * n * M + 1 <= 3 * T)%Z ->
  inject_Z M <= round 53 ((3 # 2) * round 53 (inject_Z T / inject_Z n)).
Proof.
  intros Hn HT HTM Hb Hlt.
  destruct (scale_exists n Hn) as (k & Hk0 & Hk).
  pose proof (pow2_neg_inject k Hk0) as HK.
  pose proof (pow2_pos (- k)) as HIK.
  pose proof (pow2_inject k Hk0) as HKq.
  set (K := (2 ^ k)%Z) in *. clearbody K.
  set (a := ((T * K) / n)%Z).
  assert (Ha : (a * n <= T * K < a * n + n)%Z).
  { pose proof (Z.div_mod (T * K) n ltac:(lia)) as Hd.
    pose proof (Z.mod_pos_bound (T * K) n ltac:(lia)) as Hm.
    fold a in Hd. clearbody a. lia. }
  clearbody a.
  assert (HM : (1 <= M)%Z) by nia.
  assert (Ha0 : (0 < a)%Z) by nia.
  assert (HMK : (M * K <= 2 ^ 52)%Z) by nia.
  assert (Ha53 : (a <= 2 ^ 53)%Z) by nia.
  assert (H3a : (2 * M * K <= 3 * a)%Z) by nia.
  pose proof (quotient_pos T n Hn HT) as Hx0.
  assert (Hnq : 0 < inject_Z n) by (change 0 with (inject_Z 0); apply inject_Z_lt; lia).
  assert (Hg : inject_Z a * 2 ^ (- k) <= inject_Z T / inject_Z n).
  { apply Qle_shift_div_l; [exact Hnq|].
    destruct Ha as [Ha1 _]. apply inject_Z_le in Ha1. rewrite !inject_Z_mult in Ha1.
    rewrite HKq in Ha1.
    setoid_replace (inject_Z a * 2 ^ (- k) * inject_Z n)
      with (inject_Z a * inject_Z n * 2 ^ (- k)) using relation Qeq by ring.
    now apply scale_le_l. }
  pose proof (round_ge 53 _ a (- k) ltac:(lia) Hx0 ltac:(lia) Hg) as Hy.
  set (y := round 53 (inject_Z T / inject_Z n)) in *.
  assert (Hy0 : 0 < y).
  { apply Qlt_le_trans with (inject_Z a * 2 ^ (- k)); [|exact Hy].
    apply Qmult_lt_0_compat; [|exact HIK]. change 0 with (inject_Z 0). apply inject_Z_lt. lia. }
  assert (Hf : inject_Z M * 2 ^ 0 <= (3 # 2) * y).
  { change (2 ^ 0) with 1. apply inject_Z_le in H3a. rewrite !inject_Z_mult in H3a.
    change (inject_Z 3) with 3 in H3a. change (inject_Z 2) with 2 in H3a.
    assert (E : inject_Z M == inject_Z M * inject_Z K * 2 ^ (- k))
      by (rewrite <- Qmult_assoc, (Qmult_comm (inject_Z K)), HK; ring).
    assert (H1 : 2 * inject_Z M * inject_Z K * 2 ^ (- k) <= 3 * inject_Z a * 2 ^ (- k))
      by (apply Qmult_le_compat_r; lra).
    lra. }
  pose proof (round_ge 53 ((3 # 2) * y) M 0 ltac:(lia) ltac:(lra) ltac:(lia) Hf) as Ht.
  change (2 ^ 0) with 1 in Ht. lra.
Qed.


(** The tie [3 * T = 2 * n * M]: the mean is [2 * M / 3], and one and a half
    times its rounding rounds back to [M]. *)
Lemma significant_tie (M : Z) :
  (1 <= M <= 2 ^ 49)%Z ->
  inject_Z M <= round 53 ((3 # 2) * round 53 ((2 # 3) * inject_Z M)).
Proof.
  intros [HM1 HM2].
  set (x := (2 # 3) * inject_Z M).
  assert (Hx3 : 3 * x == 2 * inject_Z M) by (unfold x; ring).
  assert (HMq : 1 <= inject_Z M) by (change 1 with (inject_Z 1); apply inject_Z_le; lia).
  assert (HMq2 : inject_Z M <= 2 ^ 49) by (rewrite <- pow2_inject by lia; apply inject_Z_le; lia).
  assert (Hx : 0 < x) by lra.
  assert (Hxu : x < 2 ^ 50) by (rewrite (pow2_succ 49); lra).
  pose proof (ilog2_lt x 50 Hx Hxu) as HL.
  destruct (ilog2_spec x Hx) as [HL1 HL2].
  rewrite (round_of_pos 53 x Hx). unfold round_pos.
  set (L := ilog2 x) in *. set (s := (52 - L)%Z).
  replace (L - (53 - 1))%Z with (- s)%Z by (unfold s; lia).
  replace (- - s)%Z with s by lia.
  assert (Hs : (3 <= s)%Z) by (unfold s; lia).
  pose proof (pow2_inject s ltac:(lia)) as HSq.
  pose proof (pow2_neg_inject s ltac:(lia)) as HS.
  pose proof (pow2_pos (- s)) as HIS.
  assert (HSev : (2 ^ s = 2 * 2 ^ (s - 1))%Z).
  { rewrite <- Z.pow_succ_r by lia. f_equal. lia. }
  pose proof (pow2_inject (s - 1) ltac:(lia)) as HS1q.
  assert (HS1pos : (0 < 2 ^ (s - 1))%Z) by (apply Z.pow_pos_nonneg; lia).
  pose proof (pow2_pred (- s + 1)) as HIS1.
  replace (- s + 1 - 1)%Z with (- s)%Z in HIS1 by lia.
  assert (HLs : 2 ^ (- s) <= 2 ^ L) by (apply pow2_le; unfold s; lia).
  pose proof (pow2_succ L) as HL2'. pose proof (pow2_succ (L + 1)) as HL3.
  replace (L + 1 + 1)%Z with (L + 2)%Z in HL3 by lia.
  pose proof (pow2_pos L) as HLpos.
  set (m := rne (x * 2 ^ s)).
  destruct (rne_close (x * 2 ^ s)) as [Hm1 Hm2]. fold m in Hm1, Hm2.
  rewrite <- HSq in Hm1, Hm2.
  set (S := (2 ^ s)%Z) in *. set (S1 := (2 ^ (s - 1))%Z) in *.
  assert (Hm : (2 * M * S - 1 <= 3 * m <= 2 * M * S + 1)%Z).
  { assert (H1 : inject_Z (6 * m + -3) <= inject_Z (4 * M * S)).
    { rewrite inject_Z_plus, !inject_Z_mult. change (inject_Z 6) with 6.
      change (inject_Z (-3)) with (-3). change (inject_Z 4) with 4. nra. }
    assert (H2 : inject_Z (4 * M * S) <= inject_Z (6 * m + 3)).
    { rewrite inject_Z_plus, !inject_Z_mult. change (inject_Z 6) with 6.
      change (inject_Z 3) with 3. change (inject_Z 4) with 4. nra. }
    rewrite <- Zle_Qle in H1, H2. lia. }
  clearbody m.
  destruct (Z_le_gt_dec (2 * M * S) (3 * m)) as [Hd|Hd].
  - (* the rounded mean is not below [2 * M / 3] *)
    assert (Hf : inject_Z M * 2 ^ 0 <= (3 # 2) * (inject_Z m * 2 ^ (- s))).
    { change (2 ^ 0) with 1. apply inject_Z_le in Hd. rewrite !inject_Z_mult in Hd.
      change (inject_Z 3) with 3 in Hd. change (inject_Z 2) with 2 in Hd.
      assert (E : inject_Z M == inject_Z M * inject_Z S * 2 ^ (- s))
        by (rewrite <- Qmult_assoc, (Qmult_comm (inject_Z S)), HS; ring).
      assert (H1 : 2 * inject_Z M * inject_Z S * 2 ^ (- s) <= 3 * inject_Z m * 2 ^ (- s))
        by (apply Qmult_le_compat_r; lra).
      lra. }
    change (2 ^ 0) with 1 in Hf.
    pose proof (round_ge 53 ((3 # 2) * (inject_Z m * 2 ^ (- s))) M 0
                  ltac:(lia) ltac:(lra) ltac:(lia)) as Ht.
    change (2 ^ 0) with 1 in Ht. lra.
  - (* the rounded mean is [(2 * M * S - 1) / (3 * S)]: a tie, or a quarter below *)
    assert (Hz : (3 * m = 2 * M * S + -1)%Z) by lia.
    assert (H3m : inject_Z (3 * m) == inject_Z (2 * M * S + -1)) by (rewrite Hz; reflexivity).
    rewrite inject_Z_plus, !inject_Z_mult in H3m.
    change (inject_Z 3) with 3 in H3m. change (inject_Z 2) with 2 in H3m.
    change (inject_Z (-1)) with (-1) in H3m.
    set (x' := (3 # 2) * (inject_Z m * 2 ^ (- s))).
    assert (Ex' : x' == inject_Z M - (1 # 2) * 2 ^ (- s)).
    { unfold x'.
      setoid_replace ((3 # 2) * (inject_Z m * 2 ^ (- s)))
        with ((1 # 2) * (3 * inject_Z m) * 2 ^ (- s)) using relation Qeq by ring.
      rewrite H3m.
      setoid_replace ((1 # 2) * (2 * inject_Z M * inject_Z S + -1) * 2 ^ (- s))
        with (inject_Z M * (2 ^ (- s) * inject_Z S) - (1 # 2) * 2 ^ (- s))
        using relation Qeq by ring.
      rewrite HS. ring. }
    assert (Hx'l : 2 ^ L <= x') by (rewrite Ex'; lra).
    assert (Hx'u : x' < 2 ^ (L + 2)) by (rewrite Ex'; lra).
    assert (Hx'0 : 0 < x') by lra.
    pose proof (ilog2_ge x' L Hx'l) as HL'1. pose proof (ilog2_lt x' (L + 2) Hx'0 Hx'u) as HL'2.
    rewrite (round_of_pos 53 x' Hx'0). unfold round_pos.
    assert (HL' : ilog2 x' = L \/ ilog2 x' = (L + 1)%Z) by lia.
    destruct HL' as [-> | ->].
    + replace (L - (53 - 1))%Z with (- s)%Z by (unfold s; lia).
      replace (- - s)%Z with s by lia.
      assert (Hw : x' * 2 ^ s == inject_Z (M * S) - (1 # 2)).
      { rewrite Ex', <- HSq, inject_Z_mult.
        setoid_replace ((inject_Z M - (1 # 2) * 2 ^ (- s)) * inject_Z S)
          with (inject_Z M * inject_Z S - (1 # 2) * (2 ^ (- s) * inject_Z S))
          using relation Qeq by ring.
        rewrite HS. ring. }
      rewrite (rne_comp _ _ Hw), rne_tie_below_even.
      * rewrite inject_Z_mult, <- Qmult_assoc, (Qmult_comm (inject_Z S)), HS. lra.
      * rewrite HSev, !Z.even_mul. simpl. apply orb_true_r.
    + replace (L + 1 - (53 - 1))%Z with (- s + 1)%Z by (unfold s; lia).
      replace (- (- s + 1))%Z with (s - 1)%Z by lia.
      assert (HS2 : inject_Z S == 2 * inject_Z S1).
      { rewrite HSev, inject_Z_mult. reflexivity. }
      assert (Hw : x' * 2 ^ (s - 1) == inject_Z (M * S1) - (1 # 4)).
      { rewrite Ex', <- HS1q, inject_Z_mult. fold S1.
        setoid_replace ((inject_Z M - (1 # 2) * 2 ^ (- s)) * inject_Z S1)
          with (inject_Z M * inject_Z S1 - (1 # 4) * (2 ^ (- s) * (2 * inject_Z S1)))
          using relation Qeq by ring.
        rewrite <- HS2, HS. ring. }
      rewrite (rne_comp _ _ Hw), rne_quarter_below.
      rewrite inject_Z_mult, <- HIS1.
      setoid_replace (inject_Z M * inject_Z S1 * (2 * 2 ^ (- s)))
        with (inject_Z M * (2 ^ (- s) * (2 * inject_Z S1))) using relation Qeq by ring.
      rewrite <- HS2, HS. lra.
Qed.


Lemma ltb_lt (a b : Q) : ltb a b = true <-> a < b.
Proof.
  unfold ltb. rewrite Qlt_alt. destruct (Qcompare a b); split; congruence.
Qed.

Lemma ltb_comp (a a' b b' : Q) : a == a' -> b == b' -> ltb a b = ltb a' b'.
Proof. intros Ha Hb. unfold ltb. now rewrite (Qcompare_comp _ _ Ha _ _ Hb). Qed.

Lemma threshold_exact : f64 (1 + Sections.thresholdFactor) == 3 # 2.
Proof. vm_compute. reflexivity. Qed.

(** The test of the analyzer, in [float64], decides the comparison of the
    exact quantities: [maxCount > 1.5 * totalCount / numSections]. *)
Lemma significant_exact (T n M : Z) :
  (1 <= n)%Z -> (1 <= T)%Z -> (T <= n * M)%Z -> (n * M <= 2 ^ 49)%Z ->
  ltb (f64_mul (f64 (1 + Sections.thresholdFactor))
               (f64_div (f64_of_int T) (f64_of_int n)))
      (f64_of_int M) = true
  <-> (3 * T < 2 * n * M)%Z.
Proof.
  intros Hn HT HTM Hb.
  assert (HM : (1 <= M)%Z) by nia.
  assert (HT53 : (0 < T <= 2 ^ 53)%Z) by lia.
  assert (Hn53 : (0 < n <= 2 ^ 53)%Z) by nia.
  assert (HM53 : (0 < M <= 2 ^ 53)%Z) by nia.
  assert (Havg : f64_div (f64_of_int T) (f64_of_int n)
                 == round 53 (inject_Z T / inject_Z n)).
  { unfold f64_div, f64_of_int, f64. apply round_comp.
    apply Qdiv_comp; apply round_int; lia. }
  assert (Ht : f64_mul (f64 (1 + Sections.thresholdFactor))
                       (f64_div (f64_of_int T) (f64_of_int n))
               == round 53 ((3 # 2) * round 53 (inject_Z T / inject_Z n))).
  { unfold f64_mul. unfold f64 at 1. apply round_comp.
    apply Qmult_comp; [apply threshold_exact|exact Havg]. }
  assert (HMx : f64_of_int M == inject_Z M) by (apply round_int; lia).
  rewrite (ltb_comp _ _ _ _ Ht HMx), ltb_lt.
  split.
  - intros Hlt. destruct (Z_lt_ge_dec (3 * T)%Z (2 * n * M)%Z) as [|Hge]; [assumption|].
    exfalso. apply (Qlt_not_le _ _ Hlt).
    destruct (Z.eq_dec (3 * T)%Z (2 * n * M)%Z) as [Heq|Hne].
    + assert (Hx : inject_Z T / inject_Z n == (2 # 3) * inject_Z M).
      { assert (Hnq : ~ inject_Z n == 0).
        { intros H0. assert (Hnq' : 0 < inject_Z n) by (change 0 with (inject_Z 0); apply inject_Z_lt; lia).
          rewrite H0 in Hnq'. now apply Qlt_irrefl in Hnq'. }
        assert (HTq : inject_Z (3 * T) == inject_Z (2 * n * M)) by (rewrite Heq; reflexivity).
        rewrite !inject_Z_mult in HTq. change (inject_Z 3) with 3 in HTq.
        change (inject_Z 2) with 2 in HTq.
        assert (HTq' : inject_Z T == (2 # 3) * inject_Z M * inject_Z n) by lra.
        rewrite HTq'. field. exact Hnq. }
      assert (Hr : round 53 ((3 # 2) * round 53 (inject_Z T / inject_Z n))
                   == round 53 ((3 # 2) * round 53 ((2 # 3) * inject_Z M))).
      { apply round_comp. apply Qmult_comp; [reflexivity|]. now apply round_comp. }
      rewrite Hr. apply significant_tie. nia.
    + apply significant_above; lia.
  - intros Hlt. apply significant_below; lia.
Qed.

End Bridge.

(** ** Sums of counts *)

Section Totals.

Import Sections.

Lemma total_nonneg (l : list Z) : (forall x, x ∈ l -> 0 <= x) -> 0 <= total l.
Proof.
  induction l as [|c rest IH]; intros Hpos; simpl; [lia|].
  pose proof (Hpos c (list_elem_of_here _ _)).
  specialize (IH (fun x Hx => Hpos x (list_elem_of_further _ _ _ Hx))). lia.
Qed.

Lemma total_ge_elem (l : list Z) (x : Z) :
  (forall y, y ∈ l -> 0 <= y) -> x ∈ l -> x <= total l.
Proof.
  induction l as [|c rest IH]; intros Hpos Hx; [now apply elem_of_nil in Hx|].
  simpl. pose proof (Hpos c (list_elem_of_here _ _)).
  pose proof (total_nonneg rest (fun y Hy => Hpos y (list_elem_of_further _ _ _ Hy))).
  apply elem_of_cons in Hx as [->|Hx]; [lia|].
  specialize (IH (fun y Hy => Hpos y (list_elem_of_further _ _ _ Hy)) Hx). lia.
Qed.

Lemma total_le_length (l : list Z) (M : Z) :
  (forall x, x ∈ l -> x <= M) -> total l <= Z.of_nat (length l) * M.
Proof.
  induction l as [|c rest IH]; intros Hle; simpl length; simpl total; [lia|].
  pose proof (Hle c (list_elem_of_here _ _)).
  specialize (IH (fun x Hx => Hle x (list_elem_of_further _ _ _ Hx))). lia.
Qed.

(** Without overflow, the running [totalCount] is the sum. *)
Lemma fold_add_exact (l : list Z) (acc : Z) :
  (forall x, x ∈ l -> 0 <= x) -> 0 <= acc -> acc + total l <= GoInt.max_int ->
  fold_left GoInt.add l acc = acc + total l.
Proof.
  revert acc. induction l as [|c rest IH]; intros acc Hpos Hacc Hmax; simpl; [lia|].
  pose proof (Hpos c (list_elem_of_here _ _)).
  pose proof (total_nonneg rest (fun y Hy => Hpos y (list_elem_of_further _ _ _ Hy))).
  simpl in Hmax.
  rewrite add_in_range by (unfold GoInt.in_range, GoInt.min_int, GoInt.max_int in *; lia).
  rewrite IH; [lia| |lia|lia].
  intros x Hx. apply Hpos. now apply list_elem_of_further.
Qed.

Lemma totalCount_exact (l : list Z) :
  (forall x, x ∈ l -> 0 <= x) -> total l <= GoInt.max_int -> totalCount l = total l.
Proof.
  intros Hpos Hmax. unfold totalCount. rewrite fold_add_exact; [lia|exact Hpos|lia|lia].
Qed.

End Totals.

Section Significance.

Import Sections GoFloat.

Lemma inject_Z_pos (z : Z) : 1 <= z -> (0 < inject_Z z)%Q.
Proof. intros Hz. change 0%Q with (inject_Z 0). apply inject_Z_lt. lia. Qed.

(** The quotient of two converted [int]s is the rounding of their exact
    quotient. *)
Lemma f64_div_int (T n : Z) :
  0 < T <= 2 ^ 53 -> 0 < n <= 2 ^ 53 ->
  (f64_div (f64_of_int T) (f64_of_int n) == round 53 (inject_Z T / inject_Z n))%Q.
Proof.
  intros HT Hn. unfold f64_div, f64_of_int, f64. apply round_comp.
  apply Qdiv_comp; apply round_int; lia.
Qed.





End Significance.

(** ** The decode pipeline: the document *)



(** A sheet whose first row carries the key WIDGET-1, no mark in the tens
    region and a mark in the sixth strip of the ones region adds 5 to the
    entry of that key and keeps its name; a sheet without marks, and a blank
    sheet, leave the store as it was. *)
Theorem DecodeDocument_scenarios :
  snd (DecodeDocument (V := Sheet.vision Sheet.files) "widget5.png"
         {["WIDGET-1" := {| Name := "Blue Widget"; Value := 7 |}]})
  = {["WIDGET-1" := {| Name := "Blue Widget"; Value := 12 |}]}
  /\ snd (DecodeDocument (V := Sheet.vision Sheet.files) "widget5.png" ∅)
     = {["WIDGET-1" := {| Name := "WIDGET-1"; Value := 5 |}]}
  /\ snd (DecodeDocument (V := Sheet.vision Sheet.files) "unmarked.png"
            {["WIDGET-1" := {| Name := "Blue Widget"; Value := 7 |}]})
     = {["WIDGET-1" := {| Name := "Blue Widget"; Value := 7 |}]}
  /\ snd (DecodeDocument (V := Sheet.vision Sheet.files) "blank.png"
            {["WIDGET-1" := {| Name := "Blue Widget"; Value := 7 |}]})
     = {["WIDGET-1" := {| Name := "Blue Widget"; Value := 7 |}]}.
Proof. repeat split; vm_compute; reflexivity. Qed.

(** * Further properties *)

(** ** More on Go's [int] *)

Lemma wrap_add_l (x y : Z) : GoInt.wrap (GoInt.wrap x + y) = GoInt.wrap (x + y).
Proof.
  unfold GoInt.wrap.
  replace ((x + 2 ^ 63) mod 2 ^ 64 - 2 ^ 63 + y + 2 ^ 63)
    with ((x + 2 ^ 63) mod 2 ^ 64 + y) by lia.
  rewrite Zplus_mod_idemp_l. f_equal. f_equal. lia.
Qed.

Lemma add_comm (a b : Z) : GoInt.add a b = GoInt.add b a.
Proof. unfold GoInt.add. now rewrite Z.add_comm. Qed.

Lemma add_add_swap (v a b : Z) :
  GoInt.add (GoInt.add v a) b = GoInt.add (GoInt.add v b) a.
Proof. unfold GoInt.add. rewrite !wrap_add_l. f_equal. lia. Qed.

Lemma add_range (a b : Z) : GoInt.in_range (GoInt.add a b).
Proof. apply wrap_range. Qed.

Lemma add_succ_pred (v : Z) : GoInt.in_range v -> GoInt.add (GoInt.add v 1) (-1) = v.
Proof.
  intros Hv. unfold GoInt.add. rewrite wrap_add_l.
  replace (v + 1 + -1) with v by lia. now apply wrap_in_range.
Qed.

Lemma add_pred_succ (v : Z) : GoInt.in_range v -> GoInt.add (GoInt.add v (-1)) 1 = v.
Proof.
  intros Hv. unfold GoInt.add. rewrite wrap_add_l.
  replace (v + -1 + 1) with v by lia. now apply wrap_in_range.
Qed.

(** ** The store: how the operations compose *)

Section StoreAlgebra.

Implicit Types (db : DB_Type) (key k newName : string) (amount : Z) (prod : Product).

(** The entry [inc] writes under its key. *)
Local Abbreviation incEntry key amount old :=
  (match old with
   | Some prod => {| Name := Name prod; Value := GoInt.add (Value prod) amount |}
   | None => {| Name := key; Value := amount |}
   end).

Lemma inc_insert db key amount :
  inc key amount db = <[key := incEntry key amount (db !! key)]> db.
Proof. unfold inc. now destruct (db !! key). Qed.

Lemma inc_lookup db key amount k :
  inc key amount db !! k
  = if decide (key = k) then Some (incEntry key amount (db !! key)) else db !! k.
Proof. rewrite inc_insert. apply lookup_insert. Qed.

Lemma updateName_lookup db key newName k :
  updateName key newName db !! k
  = if decide (key = k)
    then (fun prod => {| Name := newName; Value := Value prod |}) <$> db !! key
    else db !! k.
Proof.
  unfold updateName. destruct (decide (key = k)) as [<-|Hne].
  - destruct (db !! key) as [prod|] eqn:Hk; simpl; [apply lookup_insert_eq|exact Hk].
  - destruct (db !! key); [now rewrite lookup_insert_ne|reflexivity].
Qed.

End StoreAlgebra.

(** Increments commute: the store after two [inc] is the same in either
    order, for equal or different keys, whether the keys exist or not. *)
Theorem inc_inc_comm (db : DB_Type) (k1 k2 : string) (a b : Z) :
  inc k1 a (inc k2 b db) = inc k2 b (inc k1 a db).
Proof.
  apply map_eq. intros k. rewrite !inc_lookup.
  repeat case_decide; simplify_eq; try reflexivity.
  f_equal. destruct (db !! _) as [prod|]; simpl; f_equal.
  - apply add_add_swap.
  - apply add_comm.
Qed.

(** No operation removes an entry: [inc] adds its key to the keys of the
    store and [updateName] leaves the keys as they are. *)
Theorem store_keys (db : DB_Type) (key newName : string) (amount : Z) :
  dom (inc key amount db) = {[key]} ∪ dom db
  /\ dom (updateName key newName db) = dom db.
Proof. split; [apply inc_dom|apply updateName_dom]. Qed.

(** Of two renames of one key the later one stands. *)
Theorem updateName_updateName (db : DB_Type) (key n1 n2 : string) :
  updateName key n2 (updateName key n1 db) = updateName key n2 db.
Proof.
  apply map_eq. intros k. rewrite !updateName_lookup.
  repeat case_decide; simplify_eq; try reflexivity.
  now destruct (db !! _).
Qed.

(** A rename and an increment commute when they are for different keys or
    the renamed key exists.  On a key that does not exist yet the rename is
    lost: the increment that follows creates the entry under its default
    name, the key. *)
Theorem updateName_inc_comm (db : DB_Type) (key k newName : string) (amount : Z) :
  (key <> k \/ is_Some (db !! key) ->
   updateName key newName (inc k amount db) = inc k amount (updateName key newName db))
  /\ (db !! key = None ->
      inc key amount (updateName key newName db) !! key
      = Some {| Name := key; Value := amount |}
      /\ updateName key newName (inc key amount db) !! key
         = Some {| Name := newName; Value := amount |}).
Proof.
  split.
  - intros Hok. apply map_eq. intros k'.
    repeat (rewrite updateName_lookup || rewrite inc_lookup).
    repeat case_decide; simplify_eq; try reflexivity.
    destruct Hok as [Hne|[prod Hk]]; [congruence|]. now rewrite Hk.
  - intros Hk. split.
    + rewrite updateName_absent by exact Hk. now apply inc_lookup_absent.
    + rewrite updateName_lookup, inc_lookup. rewrite !decide_True by reflexivity.
      now rewrite Hk.
Qed.

Lemma updateName_inc_comm_example :
  updateName "A" "Alpha" (inc "B" 2 {["A" := {| Name := "A"; Value := 1 |}]})
  = inc "B" 2 (updateName "A" "Alpha" {["A" := {| Name := "A"; Value := 1 |}]}).
Proof.
  apply (proj1 (updateName_inc_comm {["A" := {| Name := "A"; Value := 1 |}]}
                  "A" "B" "Alpha" 2)).
  left. discriminate.
Defined.

(** ** The handlers of the store *)

Section Handlers.

Implicit Types (req : Request) (db : DB_Type).

Lemma HandleUpdateInventory_post req db :
  Method req = MethodPost ->
  HandleUpdateInventory req db
  = (HttpRedirect "/dashboard" StatusSeeOther,
     inc (FormValue req "key")
         (if String.eqb (FormValue req "action") "dec" then -1 else 1) db).
Proof. intros Hm. unfold HandleUpdateInventory. rewrite Hm. reflexivity. Qed.

Lemma HandleUpdateName_post req db :
  Method req = MethodPost ->
  HandleUpdateName req db
  = (HttpRedirect "/dashboard" StatusSeeOther,
     updateName (FormValue req "key") (FormValue req "name") db).
Proof. intros Hm. unfold HandleUpdateName. rewrite Hm. reflexivity. Qed.

Lemma handler_not_post req :
  Method req <> MethodPost -> negb (String.eqb (Method req) MethodPost) = true.
Proof. intros Hm. apply String.eqb_neq in Hm. now rewrite Hm. Qed.

End Handlers.

(** An increment request followed by a decrement request for the same key
    (or the other way round) leaves an entry that exists, with a value in the
    range of [int], exactly as it was.  On a key that does not exist the
    pair leaves a new entry with value 0 behind. *)
Theorem HandleUpdateInventory_inc_dec (up down : Request) (db : DB_Type) (key : string) :
  Method up = MethodPost -> Method down = MethodPost ->
  FormValue up "key" = key -> FormValue down "key" = key ->
  FormValue up "action" <> "dec" -> FormValue down "action" = "dec" ->
  (forall prod, db !! key = Some prod -> GoInt.in_range (Value prod) ->
     snd (HandleUpdateInventory down (snd (HandleUpdateInventory up db))) = db
     /\ snd (HandleUpdateInventory up (snd (HandleUpdateInventory down db))) = db)
  /\ (db !! key = None ->
      snd (HandleUpdateInventory down (snd (HandleUpdateInventory up db))) !! key
      = Some {| Name := key; Value := 0 |}).
Proof.
  intros Hup Hdown Hkup Hkdown Haup Hadown.
  rewrite !(HandleUpdateInventory_post up), !(HandleUpdateInventory_post down) by assumption.
  simpl. rewrite Hkup, Hkdown, Hadown.
  apply String.eqb_neq in Haup. rewrite Haup. simpl. clear Hkup Hkdown.
  split.
  - intros prod Hk Hr. destruct prod as [n v]. simpl in Hr.
    split; apply map_eq; intros k; rewrite !inc_lookup;
      (destruct (decide (key = k)) as [<-|]; [|reflexivity]);
      rewrite decide_True by reflexivity; rewrite Hk; simpl; f_equal; f_equal.
    + now apply add_succ_pred.
    + now apply add_pred_succ.
  - intros Hk. rewrite !inc_lookup. rewrite !decide_True by reflexivity.
    rewrite Hk. reflexivity.
Qed.

Lemma HandleUpdateInventory_inc_dec_example :
  snd (HandleUpdateInventory
         {| Method := "POST"; Form := {["key" := "W"; "action" := "dec"]} |}
         (snd (HandleUpdateInventory
                 {| Method := "POST"; Form := {["key" := "W"; "action" := "inc"]} |}
                 {["W" := {| Name := "Widget"; Value := 3 |}]})))
  = {["W" := {| Name := "Widget"; Value := 3 |}]}.
Proof.
  assert (Hne : FormValue {| Method := "POST"; Form := {["key" := "W"; "action" := "inc"]} |}
                  "action" <> "dec") by discriminate.
  assert (Hr : GoInt.in_range (Value {| Name := "Widget"; Value := 3 |})).
  { unfold GoInt.in_range, GoInt.min_int, GoInt.max_int. simpl. lia. }
  exact (proj1 (proj1 (HandleUpdateInventory_inc_dec
                  {| Method := "POST"; Form := {["key" := "W"; "action" := "inc"]} |}
                  {| Method := "POST"; Form := {["key" := "W"; "action" := "dec"]} |}
                  {["W" := {| Name := "Widget"; Value := 3 |}]} "W"
                  eq_refl eq_refl eq_refl eq_refl Hne eq_refl)
                {| Name := "Widget"; Value := 3 |} eq_refl Hr)).
Defined.

(** A request for a key that is not in the store creates the entry, with the
    key as its name: with value -1 when the action is "dec" and 1 for any
    other action; a request without a key field does so under the empty
    key. *)
Theorem HandleUpdateInventory_unknown_key (req : Request) (db : DB_Type) :
  Method req = MethodPost ->
  db !! FormValue req "key" = None ->
  snd (HandleUpdateInventory req db) !! FormValue req "key"
  = Some {| Name := FormValue req "key";
            Value := if String.eqb (FormValue req "action") "dec" then -1 else 1 |}
  /\ (Form req !! "key" = None -> "" ∈ dom (snd (HandleUpdateInventory req db))).
Proof.
  intros Hm Hk. rewrite HandleUpdateInventory_post by exact Hm. simpl. split.
  - now apply inc_lookup_absent.
  - intros Hnone. rewrite inc_dom. unfold FormValue. rewrite Hnone. simpl. set_solver.
Qed.

Lemma HandleUpdateInventory_unknown_key_example :
  snd (HandleUpdateInventory {| Method := "POST"; Form := {["action" := "dec"]} |} ∅) !! ""
  = Some {| Name := ""; Value := -1 |}.
Proof.
  exact (proj1 (HandleUpdateInventory_unknown_key
                  {| Method := "POST"; Form := {["action" := "dec"]} |} ∅
                  eq_refl (lookup_empty _))).
Defined.

(** Whatever the request, [HandleUpdateName] changes no value and no key of
    the store, [HandleUpdateInventory] removes no key and changes no name of
    an entry that exists, and either handler leaves the store as it was when
    the method is not POST. *)
Theorem handlers_frame (req : Request) (db : DB_Type) :
  (forall k, Value <$> (snd (HandleUpdateName req db) !! k) = Value <$> (db !! k))
  /\ dom (snd (HandleUpdateName req db)) = dom db
  /\ dom db ⊆ dom (snd (HandleUpdateInventory req db))
  /\ (forall k prod, db !! k = Some prod ->
        Name <$> (snd (HandleUpdateInventory req db) !! k) = Some (Name prod))
  /\ (Method req <> MethodPost ->
      HandleUpdateName req db = (HttpError "Invalid method" StatusMethodNotAllowed, db)
      /\ HandleUpdateInventory req db
         = (HttpError "Invalid method" StatusMethodNotAllowed, db)).
Proof.
  destruct (decide (Method req = MethodPost)) as [Hm|Hm].
  - rewrite HandleUpdateName_post, HandleUpdateInventory_post by exact Hm. simpl.
    repeat split.
    + intros k. rewrite updateName_lookup. case_decide; simplify_eq; [|reflexivity].
      now destruct (db !! _).
    + apply updateName_dom.
    + rewrite inc_dom. set_solver.
    + intros k prod Hk. rewrite inc_lookup. case_decide; simplify_eq.
      * now rewrite Hk.
      * now rewrite Hk.
    + congruence.
    + congruence.
  - unfold HandleUpdateName, HandleUpdateInventory.
    rewrite (handler_not_post req Hm). simpl. repeat split; try reflexivity.
    intros k prod Hk. now rewrite Hk.
Qed.

(** ** The layout of the form *)

(** The offset of a row is its multiple of the pitch 83.47, truncated. *)
Lemma rowOffset_bounds (i : Z) :
  0 <= i < 21 -> 83 * i <= rowOffset i <= 83 * i + 9.
Proof.
  intros Hi. apply row_cases in Hi.
  repeat (apply elem_of_cons in Hi; destruct Hi as [->|Hi];
          [vm_compute; split; discriminate|]).
  now apply elem_of_nil in Hi.
Qed.

Lemma rect_corners (x0 y0 x1 y1 : Z) :
  x0 <= x1 -> y0 <= y1 ->
  Rect x0 y0 x1 y1 = {| Min := Pt x0 y0; Max := Pt x1 y1 |}.
Proof.
  intros Hx Hy. unfold Rect.
  destruct (Z.ltb_spec x1 x0); [lia|]. destruct (Z.ltb_spec y1 y0); [lia|]. reflexivity.
Qed.

Lemma row_rects (i : Z) :
  0 <= i < 21 ->
  keyRect (rowOffset i)
  = {| Min := Pt 450 (540 + rowOffset i); Max := Pt 515 (605 + rowOffset i) |}
  /\ tensRect (rowOffset i)
     = {| Min := Pt 534 (541 + rowOffset i); Max := Pt 951 (576 + rowOffset i) |}
  /\ onesRect (rowOffset i)
     = {| Min := Pt 980 (541 + rowOffset i); Max := Pt 1395 (576 + rowOffset i) |}.
Proof.
  intros Hi. pose proof (rowOffset_bounds i Hi) as Ho.
  unfold keyRect, tensRect, onesRect.
  rewrite !add_in_range by (unfold GoInt.in_range, GoInt.min_int, GoInt.max_int; lia).
  repeat split; apply rect_corners; lia.
Qed.

(** No two regions of the form overlap.  In a row the key region lies left
    of the tens region and the tens region left of the ones region, and the
    two digit regions lie within the rows of pixels of the key region; the
    regions of a row end above those of every later row. *)
Theorem regions_disjoint (i j : Z) :
  0 <= i < 21 -> 0 <= j < 21 ->
  X (Max (keyRect (rowOffset i))) < X (Min (tensRect (rowOffset i)))
  /\ X (Max (tensRect (rowOffset i))) < X (Min (onesRect (rowOffset i)))
  /\ Y (Min (keyRect (rowOffset i))) <= Y (Min (tensRect (rowOffset i)))
  /\ Y (Max (tensRect (rowOffset i))) <= Y (Max (keyRect (rowOffset i)))
  /\ Y (Min (onesRect (rowOffset i))) = Y (Min (tensRect (rowOffset i)))
  /\ Y (Max (onesRect (rowOffset i))) = Y (Max (tensRect (rowOffset i)))
  /\ (i < j -> Y (Max (keyRect (rowOffset i))) < Y (Min (keyRect (rowOffset j)))).
Proof.
  intros Hi Hj.
  destruct (row_rects i Hi) as (-> & -> & ->). destruct (row_rects j Hj) as (-> & _ & _).
  pose proof (rowOffset_bounds i Hi). pose proof (rowOffset_bounds j Hj).
  simpl. repeat split; lia.
Qed.

Lemma regions_disjoint_rows_3_4 :
  Y (Max (keyRect (rowOffset 3))) < Y (Min (keyRect (rowOffset 4))).
Proof.
  apply (regions_disjoint 3 4 ltac:(lia) ltac:(lia)). lia.
Defined.

(** A key is reported only when the conversion to an image, the binary
    bitmap and the reader all succeeded, and it is the text of the reader;
    [ProcessQRRegion] returns no error in any case, and the decoder never
    returns a text together with an error. *)
Theorem ProcessQRRegion_text `{V : Vision} (img : Mat) (rect : Rectangle) (text : string) :
  fst (snd (ProcessQRRegion img rect)) = text ->
  text <> "" ->
  snd (snd (ProcessQRRegion img rect)) = None
  /\ DecodeQRCodeZXing img rect = (text, None)
  /\ exists im bitmap,
       ToImage img rect = inr im
       /\ NewBinaryBitmap im = inr bitmap
       /\ ReaderDecode bitmap = inr text.
Proof.
  rewrite ProcessQRRegion_result. simpl. unfold DecodeQRCodeZXing.
  intros Htext Hne. split; [reflexivity|].
  destruct (ToImage img rect) as [e|im] eqn:H1;
    [exfalso; apply Hne; symmetry; exact Htext|].
  destruct (NewBinaryBitmap im) as [e|bitmap] eqn:H2;
    [exfalso; apply Hne; symmetry; exact Htext|].
  destruct (ReaderDecode bitmap) as [e|t] eqn:H3;
    [exfalso; apply Hne; symmetry; exact Htext|].
  simpl in Htext. subst t. split; [reflexivity|].
  exists im, bitmap. repeat split; first [assumption|reflexivity].
Qed.

Lemma ProcessQRRegion_text_unmarked :
  DecodeQRCodeZXing (V := Sheet.vision Sheet.files) Sheet.unmarked (keyRect (rowOffset 0))
  = ("WIDGET-1", None).
Proof.
  apply (ProcessQRRegion_text (V := Sheet.vision Sheet.files)
           Sheet.unmarked (keyRect (rowOffset 0)) "WIDGET-1" eq_refl).
  discriminate.
Defined.


(** ** The rows of the document *)

Lemma row_rect_sizes (i : Z) :
  0 <= i < 21 ->
  Dx (tensRect (rowOffset i)) = 417 /\ Dy (tensRect (rowOffset i)) = 35
  /\ Dx (onesRect (rowOffset i)) = 415 /\ Dy (onesRect (rowOffset i)) = 35.
Proof.
  intros Hi. apply row_cases in Hi.
  repeat (apply elem_of_cons in Hi; destruct Hi as [->|Hi];
          [vm_compute; repeat split; reflexivity|]).
  now apply elem_of_nil in Hi.
Qed.

Section Rows.

Context `{V : Vision}.

(** Past the guard the analyzer returns the standout value of the dark
    counts and no error. *)
Lemma ProcessHorizontalSections_returns (img : Mat) (rect : Rectangle) (numSections : Z) :
  0 < numSections -> Dx rect <> 0 -> Dy rect <> 0 ->
  snd (ProcessHorizontalSections img rect numSections)
  = (Sections.standout (darkCounts img rect (Dx rect) (Dy rect) numSections) numSections,
     None).
Proof.
  intros Hn Hx Hy. unfold ProcessHorizontalSections.
  destruct (Z.leb_spec numSections 0) as [|_]; [lia|].
  destruct (Z.eqb_spec (Dx rect) 0) as [|_]; [lia|].
  destruct (Z.eqb_spec (Dy rect) 0) as [|_]; [lia|]. reflexivity.
Qed.

(** With ten sections it returns a digit. *)
Lemma ProcessHorizontalSections_digit (img : Mat) (rect : Rectangle) :
  Dx rect <> 0 -> Dy rect <> 0 ->
  exists d, 0 <= d <= 9 /\ snd (ProcessHorizontalSections img rect 10) = (d, None).
Proof.
  intros Hx Hy. eexists. split; [|apply ProcessHorizontalSections_returns; [lia|done|done]].
  destruct (standout_range (darkCounts img rect (Dx rect) (Dy rect) 10) 10)
    as [->|(k & -> & Hk & _)].
  - apply darkCounts_nonneg.
  - lia.
  - apply lookup_lt_Some in Hk. rewrite darkCounts_length in Hk. lia.
Qed.

Lemma count_exact (tens ones : Z) :
  0 <= tens <= 9 -> 0 <= ones <= 9 ->
  GoInt.add (GoInt.mul tens 10) ones = tens * 10 + ones.
Proof.
  intros Ht Ho. unfold GoInt.add, GoInt.mul.
  rewrite (wrap_in_range (tens * 10))
    by (unfold GoInt.in_range, GoInt.min_int, GoInt.max_int; lia).
  apply wrap_in_range. unfold GoInt.in_range, GoInt.min_int, GoInt.max_int. lia.
Qed.

(** A row of the form, step by step. *)
Lemma processRow_unfold (img : Mat) (db : DB_Type) (i : Z) :
  0 <= i < 21 ->
  (fst (DecodeQRCodeZXing img (keyRect (rowOffset i))) = "" ->
   snd (processRow (img, db) i) = db)
  /\ (fst (DecodeQRCodeZXing img (keyRect (rowOffset i))) <> "" ->
      exists tens ones,
        0 <= tens <= 9 /\ 0 <= ones <= 9
        /\ snd (ProcessHorizontalSections
                  (fst (ProcessQRRegion img (keyRect (rowOffset i))))
                  (tensRect (rowOffset i)) 10) = (tens, None)
        /\ snd (ProcessHorizontalSections
                  (fst (ProcessHorizontalSections
                          (fst (ProcessQRRegion img (keyRect (rowOffset i))))
                          (tensRect (rowOffset i)) 10))
                  (onesRect (rowOffset i)) 10) = (ones, None)
        /\ snd (processRow (img, db) i)
           = if tens * 10 + ones =? 0 then db
             else inc (fst (DecodeQRCodeZXing img (keyRect (rowOffset i))))
                      (tens * 10 + ones) db).
Proof.
  intros Hi. destruct (row_rect_sizes i Hi) as (Htx & Hty & Hox & Hoy).
  pose proof (ProcessQRRegion_result img (keyRect (rowOffset i))) as Hqr.
  split.
  - intros Hkey. rewrite processRow_empty_key; [reflexivity|]. now rewrite Hqr.
  - intros Hkey. unfold processRow.
    destruct (ProcessQRRegion img (keyRect (rowOffset i))) as [img1 [key err]].
    simpl in Hqr. injection Hqr as -> ->. simpl fst.
    apply String.eqb_neq in Hkey. rewrite Hkey.
    destruct (ProcessHorizontalSections_digit img1 (tensRect (rowOffset i)))
      as (tens & Ht & Htens); [lia|lia|].
    destruct (ProcessHorizontalSections img1 (tensRect (rowOffset i)) 10)
      as [img2 [tens' err]].
    simpl in Htens. injection Htens as -> ->. simpl fst.
    destruct (ProcessHorizontalSections_digit img2 (onesRect (rowOffset i)))
      as (ones & Ho & Hones); [lia|lia|].
    destruct (ProcessHorizontalSections img2 (onesRect (rowOffset i)) 10)
      as [img3 [ones' err]].
    simpl in Hones. injection Hones as -> ->.
    exists tens, ones. rewrite count_exact by assumption.
    repeat split; try lia. now destruct (tens * 10 + ones =? 0).
Qed.

(** What a row does to the store: nothing, or one increment of a key that is
    not empty by a count from 1 to 99. *)
Lemma processRow_step (img : Mat) (db : DB_Type) (i : Z) :
  0 <= i < 21 ->
  snd (processRow (img, db) i) = db
  \/ exists key count,
       key <> "" /\ 1 <= count <= 99 /\ snd (processRow (img, db) i) = inc key count db.
Proof.
  intros Hi. destruct (processRow_unfold img db i Hi) as [Hempty Hkey].
  destruct (decide (fst (DecodeQRCodeZXing img (keyRect (rowOffset i))) = "")) as [He|Hne].
  - left. now apply Hempty.
  - destruct (Hkey Hne) as (tens & ones & Ht & Ho & _ & _ & Hdb).
    destruct (Z.eqb_spec (tens * 10 + ones) 0) as [|Hc]; [now left|].
    right. eexists _, (tens * 10 + ones). split; [exact Hne|]. split; [lia|exact Hdb].
Qed.

(** The rows of a document: the store at the end is the store at the start
    after some increments, at most one for each row. *)
Lemma rows_as_incs (rows : list Z) (img : Mat) (db : DB_Type) :
  Forall (fun i => 0 <= i < 21) rows ->
  exists incs,
    (length incs <= length rows)%nat
    /\ Forall (fun kc => kc.1 <> "" /\ 1 <= kc.2 <= 99) incs
    /\ snd (foldl processRow (img, db) rows) = applyIncs db incs.
Proof.
  intros Hrows. revert img db.
  induction Hrows as [|i rows Hi _ IH]; intros img db.
  - exists []. repeat split; [simpl; lia|constructor].
  - change (foldl processRow (img, db) (i :: rows))
      with (foldl processRow (processRow (img, db) i) rows).
    pose proof (processRow_step img db i Hi) as Hstep.
    destruct (processRow (img, db) i) as [img' db']. simpl in Hstep.
    destruct Hstep as [->|(key & count & Hk & Hc & ->)].
    + destruct (IH img' db) as (incs & Hlen & Hall & Heq).
      exists incs. split; [simpl; lia|]. split; [exact Hall|exact Heq].
    + destruct (IH img' (inc key count db)) as (incs & Hlen & Hall & Heq).
      exists ((key, count) :: incs). split; [simpl; lia|].
      split; [constructor; [split; assumption|exact Hall]|exact Heq].
Qed.

End Rows.

(** ** Lists of increments *)

Section Incs.

Implicit Types (db : DB_Type) (k : string) (incs : list (string * Z)).

Lemma applyIncs_cons db key count incs :
  applyIncs db ((key, count) :: incs) = applyIncs (inc key count db) incs.
Proof. reflexivity. Qed.

Lemma applyIncs_empty_key db incs :
  Forall (fun kc => kc.1 <> "" /\ 1 <= kc.2 <= 99) incs ->
  applyIncs db incs !! "" = db !! "".
Proof.
  intros Hall. revert db. induction Hall as [|[key count] incs [Hk _] _ IH]; intros db.
  - reflexivity.
  - rewrite applyIncs_cons, IH. now apply inc_lookup_other.
Qed.

Lemma applyIncs_name db incs k prod :
  db !! k = Some prod -> Name <$> (applyIncs db incs !! k) = Some (Name prod).
Proof.
  revert db prod. induction incs as [|[key count] incs IH]; intros db prod Hk.
  - simpl. now rewrite Hk.
  - rewrite applyIncs_cons. destruct (decide (key = k)) as [->|Hne].
    + rewrite (IH _ _ (inc_lookup_present _ _ count _ Hk)). reflexivity.
    + apply IH. now rewrite inc_lookup_other.
Qed.

Lemma applyIncs_present db incs k prod :
  db !! k = Some prod ->
  Forall (fun kc => kc.1 <> "" /\ 1 <= kc.2 <= 99) incs ->
  GoInt.min_int <= Value prod ->
  Value prod + 99 * Z.of_nat (length incs) <= GoInt.max_int ->
  exists v,
    applyIncs db incs !! k = Some {| Name := Name prod; Value := v |}
    /\ Value prod <= v <= Value prod + 99 * Z.of_nat (length incs).
Proof.
  intros Hk Hall. revert db prod Hk.
  induction Hall as [|[key count] incs [_ Hc] _ IH]; intros db prod Hk Hmin Hmax.
  - exists (Value prod). simpl. rewrite Hk. destruct prod. simpl. split; [reflexivity|lia].
  - rewrite applyIncs_cons. simpl in Hc. simpl length in Hmax.
    destruct (decide (key = k)) as [->|Hne].
    + pose proof (inc_lookup_present _ _ count _ Hk) as Hk'.
      rewrite add_in_range in Hk'
        by (unfold GoInt.in_range; lia).
      destruct (IH _ _ Hk') as (v & Hv & Hb); simpl; [lia|lia|].
      exists v. split; [exact Hv|]. simpl in Hb. simpl length. lia.
    + destruct (IH (inc key count db) prod) as (v & Hv & Hb);
        [now rewrite inc_lookup_other|lia|lia|].
      exists v. split; [exact Hv|]. simpl length. lia.
Qed.

Lemma applyIncs_absent db incs k :
  db !! k = None ->
  Forall (fun kc => kc.1 <> "" /\ 1 <= kc.2 <= 99) incs ->
  99 * Z.of_nat (length incs) <= GoInt.max_int ->
  applyIncs db incs !! k = None
  \/ exists v,
       applyIncs db incs !! k = Some {| Name := k; Value := v |}
       /\ 1 <= v <= 99 * Z.of_nat (length incs).
Proof.
  intros Hk Hall. revert db Hk.
  induction Hall as [|[key count] incs [Hkey Hc] Hall IH]; intros db Hk Hmax.
  - left. exact Hk.
  - rewrite applyIncs_cons. simpl in Hc. simpl length in Hmax.
    destruct (decide (key = k)) as [->|Hne].
    + right. pose proof (inc_lookup_absent _ _ count Hk) as Hk'.
      destruct (applyIncs_present _ incs _ _ Hk' Hall) as (v & Hv & Hb); simpl.
      * unfold GoInt.min_int. lia.
      * lia.
      * exists v. split; [exact Hv|]. simpl in Hb. simpl length. lia.
    + destruct (IH (inc key count db)) as [Hnone|(v & Hv & Hb)].
      * now rewrite inc_lookup_other.
      * lia.
      * now left.
      * right. exists v. split; [exact Hv|]. simpl length. lia.
Qed.

End Incs.

(** ** The document *)

Section Document.

Context `{V : Vision}.

Lemma rows_in_range : Forall (fun i => 0 <= i < 21) (seqZ 0 21).
Proof. apply Forall_forall. intros i Hi. apply elem_of_seqZ in Hi. lia. Qed.

Lemma DecodeDocument_as_incs (inputImage : string) (db : DB_Type) :
  exists incs,
    (length incs <= 21)%nat
    /\ Forall (fun kc => kc.1 <> "" /\ 1 <= kc.2 <= 99) incs
    /\ snd (DecodeDocument inputImage db) = applyIncs db incs.
Proof.
  unfold DecodeDocument. destruct (IMRead inputImage) as [img|].
  - destruct (rows_as_incs (seqZ 0 21) img db rows_in_range) as (incs & Hlen & Hall & Heq).
    exists incs. rewrite length_seqZ in Hlen. split; [exact Hlen|]. split; [exact Hall|].
    now destruct (foldl processRow (img, db) (seqZ 0 21)).
  - exists []. repeat split; [simpl; lia|constructor].
Qed.

Lemma ProcessQRRegion_image (img : Mat) (rect : Rectangle) :
  fst (ProcessQRRegion img rect)
  = Draw (Draw img (DrawRectangle rect green 2))
         (DrawText (fst (DecodeQRCodeZXing img rect))
                   (Pt (X (Min rect)) (GoInt.add (Y (Max rect)) 10)) blue 2).
Proof. unfold ProcessQRRegion. now destruct (DecodeQRCodeZXing img rect). Qed.

End Document.



(** The store after [DecodeDocument] is the store before it with some
    increments applied in turn: at most 21 of them, each of a key that is not
    empty, by a count from 1 to 99. *)
Theorem DecodeDocument_incs `{V : Vision} (inputImage : string) (db : DB_Type) :
  exists incs,
    (length incs <= 21)%nat
    /\ Forall (fun kc => kc.1 <> "" /\ 1 <= kc.2 <= 99) incs
    /\ snd (DecodeDocument inputImage db) = applyIncs db incs.
Proof. apply DecodeDocument_as_incs. Qed.

(** What [DecodeDocument] does to the entry of a key [k].  The entry of the
    empty key is never touched.  An entry that exists stays, under its name;
    when its value is an [int] with room for 2079 more, the value does not
    decrease and grows by at most 2079 (21 rows of at most 99).  A key that
    has no entry has none afterwards, or one named by the key with a value
    from 1 to 2079. *)
Theorem DecodeDocument_entry `{V : Vision} (inputImage : string) (db : DB_Type) (k : string) :
  snd (DecodeDocument inputImage db) !! "" = db !! ""
  /\ (forall prod, db !! k = Some prod ->
        Name <$> (snd (DecodeDocument inputImage db) !! k) = Some (Name prod)
        /\ (GoInt.min_int <= Value prod -> Value prod + 2079 <= GoInt.max_int ->
            exists v,
              snd (DecodeDocument inputImage db) !! k
              = Some {| Name := Name prod; Value := v |}
              /\ Value prod <= v <= Value prod + 2079))
  /\ (db !! k = None ->
      snd (DecodeDocument inputImage db) !! k = None
      \/ exists v,
           snd (DecodeDocument inputImage db) !! k = Some {| Name := k; Value := v |}
           /\ 1 <= v <= 2079).
Proof.
  destruct (DecodeDocument_as_incs inputImage db) as (incs & Hlen & Hall & ->).
  split; [now apply applyIncs_empty_key|]. split.
  - intros prod Hk. split; [now apply applyIncs_name|].
    intros Hmin Hmax.
    destruct (applyIncs_present db incs k prod Hk Hall Hmin) as (v & Hv & Hb); [lia|].
    exists v. split; [exact Hv|lia].
  - intros Hk.
    destruct (applyIncs_absent db incs k Hk Hall) as [Hnone|(v & Hv & Hb)].
    + unfold GoInt.max_int. lia.
    + now left.
    + right. exists v. split; [exact Hv|lia].
Qed.

(** A document in which no key can be read leaves the store as it was,
    whatever its bubbles hold: it is enough that the images on which no key
    decodes are closed under the drawings of the pipeline. *)
Theorem DecodeDocument_no_keys `{V : Vision}
    (unreadable : Mat -> Prop) (inputImage : string) (img : Mat) (db : DB_Type) :
  (forall m d, unreadable m -> unreadable (Draw m d)) ->
  (forall m rect, unreadable m -> fst (DecodeQRCodeZXing m rect) = "") ->
  IMRead inputImage = Some img ->
  unreadable img ->
  snd (DecodeDocument inputImage db) = db.
Proof.
  intros Hdraw Hkey Hread Himg. unfold DecodeDocument. rewrite Hread.
  assert (Hrows : forall rows m, unreadable m ->
            snd (foldl processRow (m, db) rows) = db).
  { induction rows as [|i rows IH]; intros m Hm; [reflexivity|].
    change (foldl processRow (m, db) (i :: rows))
      with (foldl processRow (processRow (m, db) i) rows).
    rewrite processRow_empty_key.
    - apply IH. rewrite ProcessQRRegion_image. now apply Hdraw, Hdraw.
    - rewrite ProcessQRRegion_result. simpl. now apply Hkey. }
  specialize (Hrows (seqZ 0 21) img Himg).
  now destruct (foldl processRow (img, db) (seqZ 0 21)).
Qed.

Lemma DecodeDocument_no_keys_blank :
  snd (DecodeDocument (V := Sheet.vision Sheet.files) "blank.png"
         {["WIDGET-1" := {| Name := "Blue Widget"; Value := 7 |}]})
  = {["WIDGET-1" := {| Name := "Blue Widget"; Value := 7 |}]}.
Proof.
  apply (DecodeDocument_no_keys (V := Sheet.vision Sheet.files)
           (fun s => Sheet.codes s = Sheet.codes Sheet.blank) "blank.png" Sheet.blank).
  - intros m d Hm. exact Hm.
  - intros m rect Hm. unfold DecodeQRCodeZXing. simpl. rewrite Hm. reflexivity.
  - reflexivity.
  - reflexivity.
Defined.

(** ** The standout test on integers *)

Section StandoutIntegers.

Import Sections.

(** For pixel counts that are not all zero, within the bound of C5, the
    analyzer's decision is the comparison [3 * total < 2 * n * maxCount]. *)
Lemma standout_by_integers (counts : list Z) :
  (forall x, x ∈ counts -> 0 <= x) ->
  1 <= total counts ->
  Z.of_nat (length counts) * maxCount counts <= 2 ^ 49 ->
  maxCount counts ∈ counts
  /\ (forall x, x ∈ counts -> x <= maxCount counts)
  /\ standout counts (Z.of_nat (length counts))
     = if 3 * total counts <? 2 * Z.of_nat (length counts) * maxCount counts
       then maxIndex counts else 0.
Proof.
  intros Hpos HT Hbound.
  set (n := Z.of_nat (length counts)) in *. set (T := total counts) in *.
  destruct (maxCount_maxIndex_spec counts)
    as [(_ & _ & Hall)|(k & Hmi & Hk & HM & _ & Hall)].
  { pose proof (total_le_length counts 0 Hall). fold T in H. lia. }
  apply list_elem_of_lookup_2 in Hk.
  pose proof (total_le_length counts _ Hall) as HTM. fold T n in HTM.
  pose proof (total_ge_elem counts _ Hpos Hk) as HMT. fold T in HMT.
  assert (Hn : 1 <= n) by nia.
  assert (Htc : totalCount counts = T).
  { apply totalCount_exact; [exact Hpos|]. fold T. unfold GoInt.max_int. lia. }
  split; [exact Hk|]. split; [exact Hall|].
  unfold standout.
  assert (Havg : GoFloat.eqb (avg counts n) 0 = false).
  { unfold avg. rewrite Htc.
    pose proof (f64_div_int T n ltac:(lia) ltac:(nia)) as Hd.
    pose proof (round_positive 53 _ ltac:(lia) (quotient_pos T n Hn HT)) as Hp.
    unfold GoFloat.eqb. destruct (Qeq_bool _ 0) eqn:He; [|reflexivity].
    apply Qeq_bool_eq in He. rewrite Hd in He. rewrite He in Hp.
    now apply Qlt_irrefl in Hp. }
  rewrite Havg.
  pose proof (significant_exact T n (maxCount counts) Hn HT HTM Hbound) as Hsig.
  unfold significant, avg. rewrite Htc.
  destruct (Z.ltb_spec (3 * T) (2 * n * maxCount counts)) as [Hlt|Hge].
  - now rewrite (proj2 Hsig Hlt).
  - rewrite (not_true_is_false _ (fun Ht => Zlt_not_le _ _ (proj1 Hsig Ht) Hge)).
    reflexivity.
Qed.

Lemma total_app (l1 l2 : list Z) : total (l1 ++ l2) = total l1 + total l2.
Proof. induction l1 as [|c l1 IH]; simpl; [reflexivity|]. rewrite IH. lia. Qed.

Lemma total_replicate (n : nat) (c : Z) : total (replicate n c) = Z.of_nat n * c.
Proof. induction n as [|n IH]; [reflexivity|]. simpl replicate. simpl total. rewrite IH. lia. Qed.

Lemma total_ge_length (l : list Z) (m : Z) :
  (forall x, x ∈ l -> m <= x) -> Z.of_nat (length l) * m <= total l.
Proof.
  induction l as [|c rest IH]; intros Hle; simpl length; simpl total; [lia|].
  pose proof (Hle c (list_elem_of_here _ _)).
  specialize (IH (fun x Hx => Hle x (list_elem_of_further _ _ _ Hx))). lia.
Qed.

Lemma total_fmap_mul (s : Z) (l : list Z) : total (Z.mul s <$> l) = s * total l.
Proof.
  induction l as [|c rest IH]; [simpl; lia|].
  rewrite fmap_cons. change (total (s * c :: (Z.mul s <$> rest)))
    with (s * c + total (Z.mul s <$> rest)).
  rewrite IH. simpl total. lia.
Qed.

(** The scan on counts that are all multiplied by [s > 0]. *)
Lemma maxScan_scale (s : Z) (l : list Z) (i mc mi : Z) :
  0 < s ->
  maxScan (Z.mul s <$> l) i (s * mc) mi
  = (s * fst (maxScan l i mc mi), snd (maxScan l i mc mi)).
Proof.
  intros Hs. revert i mc mi. induction l as [|c rest IH]; intros i mc mi.
  - reflexivity.
  - rewrite fmap_cons. cbn [maxScan].
    destruct (Z.gtb_spec c mc) as [Hgt|Hle];
      destruct (Z.gtb_spec (s * c) (s * mc)) as [Hgt'|Hle']; try nia; apply IH.
Qed.

Lemma maxCount_maxIndex_scale (s : Z) (l : list Z) :
  0 < s ->
  maxCount (Z.mul s <$> l) = s * maxCount l /\ maxIndex (Z.mul s <$> l) = maxIndex l.
Proof.
  intros Hs. unfold maxCount, maxIndex.
  pose proof (maxScan_scale s l 0 0 (-1) Hs) as H. rewrite Z.mul_0_r in H.
  rewrite H. split; reflexivity.
Qed.

End StandoutIntegers.

Section LoneMark.

Import Sections.

Lemma lone_mark_lookup (k m : nat) (c : Z) (i : nat) (x : Z) :
  (replicate k 0 ++ c :: replicate m 0) !! i = Some x ->
  (i = k /\ x = c) \/ (i <> k /\ x = 0).
Proof.
  intros Hi. destruct (lt_eq_lt_dec i k) as [[Hlt|Heq]|Hgt]; [|subst i|].
  - rewrite lookup_app_l in Hi by (rewrite length_replicate; lia).
    apply lookup_replicate in Hi as [-> _]. right. split; [lia|reflexivity].
  - rewrite list_lookup_middle in Hi by (now rewrite length_replicate).
    injection Hi as <-. now left.
  - rewrite lookup_app_r in Hi by (rewrite length_replicate; lia).
    rewrite length_replicate in Hi.
    destruct (i - k)%nat as [|j] eqn:Hj; [lia|]. simpl in Hi.
    apply lookup_replicate in Hi as [-> _]. right. split; [lia|reflexivity].
Qed.

End LoneMark.

(** One marked section among sections that hold no dark pixel: with two
    sections or more the analyzer returns the position of the mark, counted
    from zero; with a single section it returns 0 whatever the count, so a
    region of one section never reports its mark. *)
Theorem standout_lone_mark (k m : nat) (c : Z) :
  1 <= c ->
  Z.of_nat (k + 1 + m) * c <= 2 ^ 49 ->
  ((1 <= k + m)%nat ->
   Sections.standout (replicate k 0 ++ c :: replicate m 0) (Z.of_nat (k + 1 + m))
   = Z.of_nat k)
  /\ Sections.standout [c] 1 = 0.
Proof.
  intros Hc Hbound.
  assert (Hgen : forall k m : nat,
    Z.of_nat (k + 1 + m) * c <= 2 ^ 49 ->
    Sections.standout (replicate k 0 ++ c :: replicate m 0) (Z.of_nat (k + 1 + m))
    = if (1 <=? k + m)%nat then Z.of_nat k else 0).
  { clear k m Hbound. intros k m Hbound.
    set (counts := replicate k 0 ++ c :: replicate m 0).
    assert (Hlen : length counts = (k + 1 + m)%nat).
    { unfold counts. rewrite length_app, length_cons, !length_replicate. lia. }
    assert (Htot : total counts = c).
    { unfold counts. rewrite total_app. simpl total. rewrite !total_replicate. lia. }
    assert (Hpos : forall x, x ∈ counts -> 0 <= x).
    { intros x Hx. apply list_elem_of_lookup in Hx as [i Hi].
      apply lone_mark_lookup in Hi as [[_ ->]|[_ ->]]; lia. }
    assert (Hmax : Sections.maxCount counts = c /\ Sections.maxIndex counts = Z.of_nat k).
    { destruct (maxCount_maxIndex_spec counts)
        as [(_ & _ & Hall)|(k' & Hmi & Hk' & HM & _)].
      - specialize (Hall c). unfold counts in Hall.
        rewrite elem_of_app, elem_of_cons in Hall. lia.
      - apply lone_mark_lookup in Hk' as [[-> Hk']|[_ Hk']]; [|lia].
        rewrite Hk', Hmi. split; reflexivity. }
    destruct Hmax as [HM Hmi].
    destruct (standout_by_integers counts Hpos) as (_ & _ & Hs).
    - rewrite Htot. exact Hc.
    - rewrite Hlen, HM. exact Hbound.
    - rewrite Hlen, Htot, HM, Hmi in Hs. rewrite Hs.
      destruct (Nat.leb_spec 1 (k + m)) as [Hkm|Hkm];
        destruct (Z.ltb_spec (3 * c) (2 * Z.of_nat (k + 1 + m) * c)); try reflexivity; nia. }
  split.
  - intros Hkm. rewrite (Hgen k m Hbound).
    now destruct (Nat.leb_spec 1 (k + m)); [|lia].
  - apply (Hgen 0%nat 0%nat). simpl. lia.
Qed.

Lemma standout_lone_mark_digit_7 :
  Sections.standout [0; 0; 0; 0; 0; 0; 0; 120; 0; 0] 10 = 7.
Proof.
  apply (proj1 (standout_lone_mark 7 2 120 ltac:(lia) ltac:(simpl; lia))). lia.
Defined.

(** Counts that are close together give no standout: when the largest count
    is at most one and a half times the smallest, the analyzer returns 0.
    A region that is equally dark everywhere, blank or filled, is one case of
    it. *)
Theorem standout_flat (counts : list Z) (lo hi : Z) :
  (forall x, x ∈ counts -> lo <= x <= hi) ->
  0 <= lo ->
  2 * hi <= 3 * lo ->
  Z.of_nat (length counts) * hi <= 2 ^ 49 ->
  Sections.standout counts (Z.of_nat (length counts)) = 0.
Proof.
  intros Hall Hlo Hflat Hbound.
  assert (Hpos : forall x, x ∈ counts -> 0 <= x) by (intros x Hx; specialize (Hall x Hx); lia).
  pose proof (total_nonneg counts Hpos) as HT0.
  destruct (Z.eq_dec (total counts) 0) as [HT|HT].
  - apply standout_zeros. intros x Hx.
    pose proof (total_ge_elem counts x Hpos Hx). specialize (Hpos x Hx). lia.
  - pose proof (total_ge_length counts lo (fun x Hx => proj1 (Hall x Hx))) as Hge.
    assert (HM : Sections.maxCount counts <= hi /\ 0 <= Sections.maxCount counts).
    { destruct (maxCount_maxIndex_spec counts) as [(_ & _ & Hle)|(k & _ & Hk & HM & _)].
      - pose proof (total_le_length counts 0 Hle). lia.
      - apply list_elem_of_lookup_2 in Hk. specialize (Hall _ Hk). lia. }
    destruct (standout_by_integers counts Hpos) as (_ & _ & ->); [lia|nia|].
    destruct (Z.ltb_spec (3 * total counts)
                (2 * Z.of_nat (length counts) * Sections.maxCount counts));
      [nia|reflexivity].
Qed.

Lemma standout_flat_example :
  Sections.standout [20; 25; 30; 22; 28; 21; 24; 26; 29; 23] 10 = 0.
Proof.
  apply (standout_flat [20; 25; 30; 22; 28; 21; 24; 26; 29; 23] 20 30); try lia.
  - intros x Hx. repeat (apply elem_of_cons in Hx as [->|Hx]; [lia|]).
    now apply elem_of_nil in Hx.
  - simpl. lia.
Defined.

(** The result depends on the proportions of the counts only: multiplying
    every count by the same [s >= 1] (the same marks on a region [s] times as
    tall, say) does not change what the analyzer returns. *)
Theorem standout_scale (counts : list Z) (s : Z) :
  1 <= s ->
  (forall x, x ∈ counts -> 0 <= x) ->
  Z.of_nat (length counts) * (s * Sections.maxCount counts) <= 2 ^ 49 ->
  Sections.standout (Z.mul s <$> counts) (Z.of_nat (length counts))
  = Sections.standout counts (Z.of_nat (length counts)).
Proof.
  intros Hs Hpos Hbound.
  assert (Hpos' : forall x, x ∈ Z.mul s <$> counts -> 0 <= x).
  { intros x Hx. apply list_elem_of_fmap in Hx as (y & -> & Hy). specialize (Hpos y Hy). nia. }
  destruct (maxCount_maxIndex_scale s counts ltac:(lia)) as [HM Hmi].
  pose proof (total_nonneg counts Hpos) as HT0.
  destruct (Z.eq_dec (total counts) 0) as [HT|HT].
  - rewrite !standout_zeros; [reflexivity| |].
    + intros x Hx. pose proof (total_ge_elem counts x Hpos Hx).
      specialize (Hpos x Hx). lia.
    + intros x Hx. apply list_elem_of_fmap in Hx as (y & -> & Hy).
      pose proof (total_ge_elem counts y Hpos Hy). specialize (Hpos y Hy). nia.
  - assert (HM0 : 0 <= Sections.maxCount counts).
    { destruct (maxCount_maxIndex_spec counts) as [(-> & _)|(k & _ & _ & H & _)]; lia. }
    destruct (standout_by_integers counts Hpos) as (_ & _ & ->); [lia|nia|].
    pose proof (standout_by_integers (Z.mul s <$> counts) Hpos') as Hs'.
    rewrite length_fmap, total_fmap_mul, HM, Hmi in Hs'.
    destruct Hs' as (_ & _ & ->); [nia|exact Hbound|].
    destruct (Z.ltb_spec (3 * total counts)
                (2 * Z.of_nat (length counts) * Sections.maxCount counts));
      destruct (Z.ltb_spec (3 * (s * total counts))
                  (2 * Z.of_nat (length counts) * (s * Sections.maxCount counts)));
      try reflexivity; nia.
Qed.

Lemma standout_scale_example :
  Sections.standout (Z.mul 3 <$> [0; 4; 40; 2; 0; 0; 1; 0; 0; 0]) 10
  = Sections.standout [0; 4; 40; 2; 0; 0; 1; 0; 0; 0] 10.
Proof.
  apply (standout_scale [0; 4; 40; 2; 0; 0; 1; 0; 0; 0] 3); try lia.
  - intros x Hx. repeat (apply elem_of_cons in Hx as [->|Hx]; [lia|]).
    now apply elem_of_nil in Hx.
  - vm_compute. discriminate.
Defined.

(** ** The sections when the width is a multiple of their number *)

Section ExactStrips.

Import GoFloat Sections.

Lemma to_int_inject (x : Q) (z : Z) : (x == inject_Z z)%Q -> to_int x = z.
Proof.
  unfold Qeq, to_int. simpl. intros H. rewrite Z.mul_1_r in H. rewrite H.
  apply Z.quot_mul. discriminate.
Qed.

(** An [int] from 0 to [2^prec] converts exactly. *)
Lemma round_nonneg_int (prec z : Z) :
  1 <= prec -> 0 <= z <= 2 ^ prec -> (round prec (inject_Z z) == inject_Z z)%Q.
Proof.
  intros Hp Hz. destruct (Z.eq_dec z 0) as [->|Hne]; [reflexivity|].
  apply round_int; lia.
Qed.

Lemma sectionWidth_exact (n q : Z) :
  1 <= n -> 1 <= q -> n * q <= 2 ^ 24 ->
  (sectionWidth (n * q) n == inject_Z q)%Q.
Proof.
  intros Hn Hq Hb. unfold sectionWidth, f32_div, f32_of_int, f32.
  assert (Hnq : (0 < inject_Z n)%Q) by now apply inject_Z_pos.
  assert (Hdiv : (round 24 (inject_Z (n * q)) / round 24 (inject_Z n) == inject_Z q)%Q).
  { rewrite (round_nonneg_int 24 (n * q)) by nia.
    rewrite (round_nonneg_int 24 n) by nia.
    rewrite inject_Z_mult. field. intros H0. rewrite H0 in Hnq. now apply Qlt_irrefl in Hnq. }
  rewrite (round_comp 24 _ _ Hdiv). apply round_nonneg_int; nia.
Qed.

Lemma xStart_exact (n q i : Z) :
  1 <= n -> 1 <= q -> n * q <= 2 ^ 24 -> 0 <= i < n ->
  xStart (n * q) n i = i * q.
Proof.
  intros Hn Hq Hb Hi. unfold xStart, f32_mul, f32_of_int, f32.
  apply to_int_inject.
  assert (Hmul : (round 24 (inject_Z i) * sectionWidth (n * q) n == inject_Z (i * q))%Q).
  { rewrite (round_nonneg_int 24 i) by nia.
    rewrite sectionWidth_exact by assumption. now rewrite inject_Z_mult. }
  rewrite (round_comp 24 _ _ Hmul). apply round_nonneg_int; nia.
Qed.

Lemma xEnd_exact (n q i : Z) :
  1 <= n -> 1 <= q -> n * q <= 2 ^ 24 -> 0 <= i < n ->
  xEnd (n * q) n i = (i + 1) * q.
Proof.
  intros Hn Hq Hb Hi. unfold xEnd.
  destruct (Z.eqb_spec i (n - 1)) as [->|Hne]; [lia|].
  rewrite xStart_exact by assumption.
  rewrite (to_int_inject _ q (sectionWidth_exact n q Hn Hq Hb)).
  rewrite add_in_range by (unfold GoInt.in_range, GoInt.min_int, GoInt.max_int; nia).
  lia.
Qed.

End ExactStrips.

(** When the width of the region is a multiple [n * q] of the number of
    sections (and at most [2^24], so that [float32] holds it exactly), the
    sections are the [n] runs of [q] columns: section [i] is
    [i * q, (i + 1) * q), each starts where the one before ends, the first at
    0 and the last ending at the width. *)
Theorem strips_tile_multiple (n q : Z) :
  1 <= n -> 1 <= q -> n * q <= 2 ^ 24 ->
  Sections.strips (n * q) n = (fun i => (i * q, (i + 1) * q)) <$> seqZ 0 n.
Proof.
  intros Hn Hq Hb. unfold Sections.strips. apply list_fmap_ext.
  intros k i Hi. apply lookup_seqZ in Hi as [-> Hk].
  rewrite xStart_exact, xEnd_exact by lia. reflexivity.
Qed.

Lemma strips_tile_multiple_420 :
  Sections.strips 420 10
  = [(0, 42); (42, 84); (84, 126); (126, 168); (168, 210);
     (210, 252); (252, 294); (294, 336); (336, 378); (378, 420)].
Proof.
  exact (strips_tile_multiple 10 42 ltac:(lia) ltac:(lia) ltac:(lia)).
Defined.
